(** * PubSubSQL: tag index, command lexer, bridge parser and client

    A shallow embedding of four Go sources:

    - [server/tag.go]          the per-value tag index, a doubly linked list
                               of heap-allocated nodes ([Module Tag]);
    - [parser/lexer.go]        the command lexer, a state machine over a
                               cursor into the input string ([Module Lexer]);
    - [server/parser_mysql.go] the bridge ("mysql") sub-grammar of the parser
                               ([Module Parser]);
    - [client/client.go]       the client's [Execute] round trip
                               ([Module Client]).

    Go pointers are locations of an explicit heap, [nil] is [None]; Go
    panics are the [Panic] outcome of the [result] type; stateful code is
    written in a state-and-error monad so that the definitions read line by
    line like the source. *)

From Stdlib Require Import ZArith Ascii.
From stdpp Require Import gmap strings list fin_maps.

Set Warnings "-clear-no-such-hyp".

Local Open Scope string_scope.
Local Open Scope list_scope.
Local Open Scope Z_scope.

(** ** Outcomes and the state-and-error monad *)

(** What a Go call can do: return, panic at run time, or (for the loops of
    the model, which are bounded by fuel) use up its fuel. *)
Inductive result (A : Type) : Type :=
  | Ok (a : A)
  | Panic (why : string)
  | NoFuel.
Arguments Ok {A} a.
Arguments Panic {A} why.
Arguments NoFuel {A}.

Definition M (S A : Type) : Type := S -> result (A * S).

Definition ret {S A : Type} (a : A) : M S A := fun s => Ok (a, s).

Definition bind {S A B : Type} (c : M S A) (k : A -> M S B) : M S B :=
  fun s => match c s with
           | Ok (a, s') => k a s'
           | Panic why => Panic why
           | NoFuel => NoFuel
           end.

Definition panic {S A : Type} (why : string) : M S A := fun _ => Panic why.
Definition get {S : Type} : M S S := fun s => Ok (s, s).
Definition put {S : Type} (s : S) : M S unit := fun _ => Ok (tt, s).
Definition modify {S : Type} (f : S -> S) : M S unit := fun s => Ok (tt, f s).

Notation "x <- c ;; k" := (bind c (fun x => k))
  (at level 90, c at level 89, k at level 90, right associativity).
Notation "c ;;; k" := (bind c (fun _ => k))
  (at level 90, k at level 90, right associativity).

(** ** server/tag.go *)

Module Tag.

(** A [*tag]: [None] is Go's [nil]. *)
Definition loc := positive.
Definition ptr := option loc.
Definition nil : ptr := None.

(** [type tag struct { prev *tag; next *tag; idx int }] *)
Record tag := mkTag { prev : ptr; next : ptr; idx : Z }.

Abbreviation heap := (gmap loc tag).

(** Reading through a pointer: a [nil] pointer panics, as in Go.  A
    location outside the heap does not arise in Go (the collector keeps
    every referenced tag alive); the model reports it as a panic too. *)
Definition deref (p : ptr) : M heap tag := fun h =>
  match p with
  | None => Panic "nil pointer dereference"
  | Some l => match h !! l with
              | Some t => Ok (t, h)
              | None => Panic "dangling pointer"
              end
  end.

Definition store (p : ptr) (f : tag -> tag) : M heap unit := fun h =>
  match p with
  | None => Panic "nil pointer dereference"
  | Some l => match h !! l with
              | Some t => Ok (tt, <[l := f t]> h)
              | None => Panic "dangling pointer"
              end
  end.

(** [&tag{...}]: a location not yet in the heap. *)
Definition new (t : tag) : M heap ptr := fun h =>
  let l := fresh (dom h) in Ok (Some l, <[l := t]> h).

Definition get_prev (p : ptr) : M heap ptr := t <- deref p ;; ret (prev t).
Definition get_next (p : ptr) : M heap ptr := t <- deref p ;; ret (next t).
Definition get_idx (p : ptr) : M heap Z := t <- deref p ;; ret (idx t).
Definition set_prev (p v : ptr) : M heap unit :=
  store p (fun t => mkTag v (next t) (idx t)).
Definition set_next (p v : ptr) : M heap unit :=
  store p (fun t => mkTag (prev t) v (idx t)).
Definition set_idx (p : ptr) (v : Z) : M heap unit :=
  store p (fun t => mkTag (prev t) (next t) v).

Definition is_nil (p : ptr) : bool := match p with None => true | Some _ => false end.

(** [func addTag(head *tag, idx int) *tag].  The tuple assignment
    [head.next, t.next, t.prev = t, head.next, head] evaluates its right
    side first and then assigns from left to right. *)
Definition addTag (head : ptr) (i : Z) : M heap ptr :=
  t <- new (mkTag nil nil i) ;;
  (if is_nil head then ret tt
   else
     old <- get_next head ;;
     set_next head t ;;;
     set_next t old ;;;
     set_prev t head) ;;;
  tn <- get_next t ;;
  (if is_nil tn then ret tt else set_prev tn t) ;;;
  ret t.

(** [func removeTag(t *tag) bool] *)
Definition removeTag (t : ptr) : M heap bool :=
  tp <- get_prev t ;;
  if is_nil tp then
    tn <- get_next t ;;
    if is_nil tn then
      (* last element, the caller handles the rest *)
      ret true
    else
      (* slide and remove *)
      let freeMe := tn in
      fi <- get_idx freeMe ;;
      fn <- get_next freeMe ;;
      set_idx t fi ;;;
      set_next t fn ;;;
      tn' <- get_next t ;;
      (if is_nil tn' then ret tt else set_prev tn' t) ;;;
      set_prev freeMe nil ;;;
      set_next freeMe nil ;;;
      ret false
  else
    tn <- get_next t ;;
    set_next tp tn ;;;
    tn' <- get_next t ;;
    (if is_nil tn' then ret tt
     else tp' <- get_prev t ;; set_prev tn' tp') ;;;
    set_prev t nil ;;;
    set_next t nil ;;;
    ret false.

(** *** Well-formed heaps *)

Definition valid_ptr (h : heap) (p : ptr) : Prop :=
  match p with None => True | Some l => is_Some (h !! l) end.

(** Every link stored in the heap leads to an allocated tag (Go has no
    dangling pointers). *)
Definition closed (h : heap) : Prop :=
  map_Forall (fun _ t => valid_ptr h (prev t) /\ valid_ptr h (next t)) h.

#[global] Instance valid_ptr_dec h p : Decision (valid_ptr h p).
Proof. destruct p; simpl; apply _. Defined.

#[global] Instance closed_dec h : Decision (closed h).
Proof. unfold closed. apply _. Defined.

(** *** Walking the list *)

(** The traversal the owner of a list performs: follow [next] from [p]
    until [nil], collecting each tag with the index it carries.  [None]
    when [fuel] steps do not reach [nil]. *)
Fixpoint walk (fuel : nat) (h : heap) (p : ptr) : option (list (loc * Z)) :=
  match p with
  | None => Some []
  | Some l =>
      match fuel with
      | O => None
      | S fuel' =>
          match h !! l with
          | Some t =>
              match walk fuel' h (next t) with
              | Some ls => Some ((l, idx t) :: ls)
              | None => None
              end
          | None => None
          end
      end
  end.

(** [dlseg h p s ls e]: the tags [ls] (location and index, in order) are
    linked from [s] up to the link [e], the first one having [p] as its
    [prev] and each later one its predecessor. *)
Fixpoint dlseg (h : heap) (p s : ptr) (ls : list (loc * Z)) (e : ptr) : Prop :=
  match ls with
  | [] => s = e
  | (l, i) :: ls' =>
      s = Some l /\ exists n, h !! l = Some (mkTag p n i) /\ dlseg h (Some l) n ls' e
  end.

(** A well-formed list owned through [head]: [head] is its first tag
    (the one with no [prev]), the tags are pairwise distinct and the last
    one has no [next]. *)
Definition dlist (h : heap) (head : ptr) (ls : list (loc * Z)) : Prop :=
  dlseg h nil head ls nil /\ NoDup ls.*1.

(** *** The owner of a list

    tag.go has no caller of its own: the owner (the column's map from a
    value to its list) holds one [head] pointer per list and calls
    [addTag] and [removeTag]. *)

Record index := mkIndex { hp : heap; head : ptr }.

Definition empty : index := mkIndex ∅ nil.

Definition on_heap {A : Type} (c : M heap A) : M index A := fun st =>
  match c (hp st) with
  | Ok (a, h) => Ok (a, mkIndex h (head st))
  | Panic why => Panic why
  | NoFuel => NoFuel
  end.

Definition set_head (p : ptr) : M index unit :=
  modify (fun st => mkIndex (hp st) p).

(** The owner that [addTag]'s own comment describes ("adds tag as next
    element after the head"): the head is set by the first insertion and
    stays; the returned tag is the handle of the new row. *)
Definition owner_add (i : Z) : M index ptr :=
  st <- get ;;
  t <- on_heap (addTag (head st) i) ;;
  (if is_nil (head st) then set_head t else ret tt) ;;;
  ret t.

(** Modelled from the spec: the owner of section 4.3, which is not in
    tag.go ("Returns the newly inserted tag, which callers use as their
    new head"). *)
Definition spec_owner_add (i : Z) : M index ptr :=
  st <- get ;;
  t <- on_heap (addTag (head st) i) ;;
  set_head t ;;;
  ret t.

(** The owner's side of [removeTag] ("last element, let caller(columns
    tag map) handle the rest"): it clears its head when the call
    answers [true]. *)
Definition owner_remove (t : ptr) : M index bool :=
  b <- on_heap (removeTag t) ;;
  (if b then set_head nil else ret tt) ;;;
  ret b.

(** The tags linked from the head, with the index each one carries. *)
Definition linked (st : index) : list (loc * Z) :=
  default [] (walk (size (hp st)) (hp st) (head st)).

Definition idx_at (st : index) (t : loc) : Z :=
  default 0 (idx <$> hp st !! t).

(** Operations of the owner; a removal names the tag by its pointer. *)
Inductive op := Add (i : Z) | Remove (t : loc).

(** The owner's state together with the rows that currently hold the
    value: the indices added and not yet removed. *)
Record world := mkWorld { st : index; rows : gset Z }.

Definition start : world := mkWorld empty ∅.

Definition do_op (add : Z -> M index ptr) (o : op) (w : world) : result world :=
  match o with
  | Add i =>
      match add i (st w) with
      | Ok (_, st') => Ok (mkWorld st' ({[i]} ∪ rows w))
      | Panic why => Panic why
      | NoFuel => NoFuel
      end
  | Remove t =>
      match owner_remove (Some t) (st w) with
      | Ok (_, st') => Ok (mkWorld st' (rows w ∖ {[idx_at (st w) t]}))
      | Panic why => Panic why
      | NoFuel => NoFuel
      end
  end.

Fixpoint play (add : Z -> M index ptr) (ops : list op) (w : world) : result world :=
  match ops with
  | [] => Ok w
  | o :: ops' =>
      match do_op add o w with
      | Ok w' => play add ops' w'
      | Panic why => Panic why
      | NoFuel => NoFuel
      end
  end.

(** An operation the owner may perform: a row is added only while it does
    not hold the value, and only a tag currently linked is removed. *)
Definition legal_op (o : op) (w : world) : Prop :=
  match o with
  | Add i => i ∉ rows w
  | Remove t => t ∈ (linked (st w)).*1
  end.

Fixpoint legal (add : Z -> M index ptr) (ops : list op) (w : world) : Prop :=
  match ops with
  | [] => True
  | o :: ops' =>
      legal_op o w /\
      match do_op add o w with
      | Ok w' => legal add ops' w'
      | _ => True
      end
  end.

#[global] Instance legal_op_dec o w : Decision (legal_op o w).
Proof. destruct o; simpl; apply _. Defined.

#[global] Instance legal_dec add ops w : Decision (legal add ops w).
Proof.
  revert w. induction ops as [|o ops IH]; intros w; simpl; [apply _|].
  destruct (do_op add o w); apply _.
Defined.

(** The last tag of a segment, or [p] when the segment is empty: the
    [prev] of the tag that follows the segment. *)
Definition lastp (p : ptr) (ls : list (loc * Z)) : ptr :=
  match last ls with Some (l, _) => Some l | None => p end.

(** [n] calls of [removeTag] on the same pointer, with their results. *)
Fixpoint drain (n : nat) (hd : ptr) : M heap (list bool) :=
  match n with
  | O => ret []
  | S n' => b <- removeTag hd ;; bs <- drain n' hd ;; ret (b :: bs)
  end.

(** The invariant of the owner: the tags linked from the head form a
    well-formed list that holds exactly the rows of the world, each once. *)
Definition good (w : world) : Prop :=
  exists ls,
    dlist (hp (st w)) (head (st w)) ls /\ NoDup ls.*2 /\
    list_to_set ls.*2 = rows w.

(** A history of the owner: three rows added, the middle tag and then
    the head removed, one more row added. *)
Definition history : list op :=
  [Add 1; Add 2; Add 3; Remove 3%positive; Remove 1%positive; Add 7].

(** A concrete list: rows 1, 2, 3 added in this order, so that the links
    run 1, 3, 2 from the head. *)
Definition three : heap :=
  <[1%positive := mkTag nil (Some 3%positive) 1]>
    (<[3%positive := mkTag (Some 1%positive) (Some 2%positive) 3]>
       (<[2%positive := mkTag (Some 3%positive) nil 2]> ∅)).

Definition three_links : list (loc * Z) :=
  [(1%positive, 1); (3%positive, 3); (2%positive, 2)].

(** *** Symbolic execution of the heap primitives *)

Lemma bind_ok {S A B} (c : M S A) (k : A -> M S B) s a s' :
  c s = Ok (a, s') -> bind c k s = k a s'.
Proof. unfold bind. now intros ->. Qed.

Lemma deref_ok h l t : h !! l = Some t -> deref (Some l) h = Ok (t, h).
Proof. unfold deref. now intros ->. Qed.

Lemma store_ok h l t f :
  h !! l = Some t -> store (Some l) f h = Ok (tt, <[l := f t]> h).
Proof. unfold store. now intros ->. Qed.

Lemma get_prev_ok h l t : h !! l = Some t -> get_prev (Some l) h = Ok (prev t, h).
Proof. intros H. unfold get_prev. now rewrite (bind_ok _ _ _ _ _ (deref_ok _ _ _ H)). Qed.

Lemma get_next_ok h l t : h !! l = Some t -> get_next (Some l) h = Ok (next t, h).
Proof. intros H. unfold get_next. now rewrite (bind_ok _ _ _ _ _ (deref_ok _ _ _ H)). Qed.

Lemma get_idx_ok h l t : h !! l = Some t -> get_idx (Some l) h = Ok (idx t, h).
Proof. intros H. unfold get_idx. now rewrite (bind_ok _ _ _ _ _ (deref_ok _ _ _ H)). Qed.

Lemma set_prev_ok h l t v :
  h !! l = Some t -> set_prev (Some l) v h = Ok (tt, <[l := mkTag v (next t) (idx t)]> h).
Proof. intros H. unfold set_prev. now rewrite (store_ok _ _ _ _ H). Qed.

Lemma set_next_ok h l t v :
  h !! l = Some t -> set_next (Some l) v h = Ok (tt, <[l := mkTag (prev t) v (idx t)]> h).
Proof. intros H. unfold set_next. now rewrite (store_ok _ _ _ _ H). Qed.

Lemma set_idx_ok h l t v :
  h !! l = Some t -> set_idx (Some l) v h = Ok (tt, <[l := mkTag (prev t) (next t) v]> h).
Proof. intros H. unfold set_idx. now rewrite (store_ok _ _ _ _ H). Qed.

Lemma new_ok h t :
  new t h = Ok (Some (fresh (dom h)), <[fresh (dom h) := t]> h).
Proof. reflexivity. Qed.

Lemma fresh_unallocated (h : heap) : h !! fresh (dom h) = None.
Proof. apply not_elem_of_dom, is_fresh. Qed.

Ltac heap_lookup :=
  repeat first [ rewrite lookup_insert_eq | rewrite lookup_insert_ne by congruence ];
  first [ reflexivity | eassumption ].

Ltac exec1 :=
  first
    [ erewrite get_next_ok by heap_lookup
    | erewrite get_prev_ok by heap_lookup
    | erewrite get_idx_ok by heap_lookup
    | erewrite set_next_ok by heap_lookup
    | erewrite set_prev_ok by heap_lookup
    | erewrite set_idx_ok by heap_lookup ];
  cbn [is_nil nil next prev idx ret]; cbv beta iota.

Ltac exec :=
  unfold bind; cbn [is_nil nil next prev idx ret]; cbv beta iota; repeat exec1.

(** *** Segments *)

Lemma lastp_cons p l i ls : lastp p ((l, i) :: ls) = lastp (Some l) ls.
Proof.
  unfold lastp. rewrite last_cons. now destruct (last ls) as [[? ?]|].
Qed.

Lemma dlseg_frame h h' p s ls e :
  (forall l, l ∈ ls.*1 -> h' !! l = h !! l) ->
  dlseg h p s ls e -> dlseg h' p s ls e.
Proof.
  revert p s. induction ls as [|[l i] ls IH]; intros p s Hfr; simpl; [done|].
  intros (-> & n & Hl & Hrest). split; [done|]. exists n. split.
  - rewrite Hfr; [done|]. simpl. by constructor.
  - apply IH; [|done]. intros l' Hl'. apply Hfr. simpl. by constructor.
Qed.

Lemma dlseg_app h p s l1 l2 e :
  dlseg h p s (l1 ++ l2) e <->
  exists m, dlseg h p s l1 m /\ dlseg h (lastp p l1) m l2 e.
Proof.
  revert p s. induction l1 as [|[l i] l1 IH]; intros p s; simpl.
  - split; [intros H; exists s; done | intros (m & -> & H); done].
  - rewrite lastp_cons. split.
    + intros (-> & n & Hl & Hrest). apply IH in Hrest as (m & H1 & H2).
      exists m. split; [|done]. split; [done|]. exists n. done.
    + intros (m & (-> & n & Hl & H1) & H2). split; [done|].
      exists n. split; [done|]. apply IH. exists m. done.
Qed.

Lemma dlseg_allocated h p s ls e l :
  dlseg h p s ls e -> l ∈ ls.*1 -> is_Some (h !! l).
Proof.
  revert p s. induction ls as [|[l' i] ls IH]; intros p s; simpl.
  - intros _ H. inversion H.
  - intros (-> & n & Hl & Hrest) Hin. apply elem_of_cons in Hin as [->|Hin]; [eauto|].
    eapply IH; eauto.
Qed.

Lemma dlseg_length h p s ls e :
  dlseg h p s ls e -> NoDup ls.*1 -> (length ls <= size h)%nat.
Proof.
  intros Hseg Hnd.
  rewrite <- (length_fmap fst ls), <- size_dom.
  rewrite <- (size_list_to_set (C := gset loc) ls.*1) by done.
  apply subseteq_size. intros l Hl. apply elem_of_list_to_set in Hl.
  apply elem_of_dom. eapply dlseg_allocated; eauto.
Qed.

Lemma walk_dlseg n h p s ls :
  dlseg h p s ls nil -> (length ls <= n)%nat -> walk n h s = Some ls.
Proof.
  revert n p s. induction ls as [|[l i] ls IH]; intros n p s; simpl.
  - intros -> _. destruct n; reflexivity.
  - intros (-> & m & Hl & Hrest) Hlen. destruct n as [|n]; [lia|]. simpl.
    rewrite Hl. simpl. rewrite (IH n (Some l) m) by (done || lia). done.
Qed.

Lemma dlist_linked h hd ls :
  dlist h hd ls -> linked (mkIndex h hd) = ls.
Proof.
  intros [Hseg Hnd]. unfold linked. simpl.
  rewrite (walk_dlseg _ h nil hd ls); [done | done | eapply dlseg_length; eauto].
Qed.

Lemma dlseg_fresh h p s ls e t :
  dlseg h p s ls e -> h !! t = None -> t ∉ ls.*1.
Proof.
  intros Hseg Ht Hin. destruct (dlseg_allocated _ _ _ _ _ _ Hseg Hin) as [v Hv].
  congruence.
Qed.

Ltac frame_away :=
  let l := fresh "l" in
  let Hl := fresh "Hl" in
  intros l Hl; rewrite ?lookup_insert_ne; [reflexivity | intros ->; tauto ..].

Lemma addTag_dlist h hd ls i :
  dlist h hd ls ->
  exists t h',
    addTag hd i h = Ok (Some t, h') /\ h !! t = None /\
    dlist h' (if is_nil hd then Some t else hd)
      (match ls with [] => [(t, i)] | x :: rest => x :: (t, i) :: rest end).
Proof.
  intros [Hseg Hnd].
  pose proof (fresh_unallocated h) as Hf.
  pose proof (dlseg_fresh _ _ _ _ _ _ Hseg Hf) as Hnew.
  exists (fresh (dom h)). unfold addTag. unfold bind at 1. rewrite new_ok.
  set (t := fresh (dom h)) in *. cbv beta iota.
  destruct ls as [|[l i0] rest]; simpl in Hseg.
  - subst hd. exec. eexists. split; [reflexivity|]. split; [done|].
    split; [|apply NoDup_singleton]. simpl. split; [done|].
    exists nil. by rewrite lookup_insert_eq.
  - destruct Hseg as (-> & n & Hl & Hrest).
    simpl in Hnd, Hnew. apply NoDup_cons in Hnd as [Hl_rest Hnd].
    apply not_elem_of_cons in Hnew as [Htl Hnew].
    destruct rest as [|[nl inl] rest]; simpl in Hrest.
    + subst n. exec. eexists. split; [reflexivity|]. split; [done|].
      split.
      * simpl. split; [done|]. eexists. split; [heap_lookup|].
        split; [done|]. eexists. split; [heap_lookup|]. done.
      * simpl. apply NoDup_cons. split; [|apply NoDup_singleton].
        intros Hin. apply list_elem_of_singleton in Hin. congruence.
    + destruct Hrest as (-> & nn & Hnl & Hrest).
      simpl in Hnd, Hnew, Hl_rest.
      apply NoDup_cons in Hnd as [Hnl_rest Hnd].
      apply not_elem_of_cons in Hnew as [Htnl Hnew].
      apply not_elem_of_cons in Hl_rest as [Hlnl Hl_rest].
      exec. eexists. split; [reflexivity|]. split; [done|].
      split.
      * simpl. split; [done|]. eexists. split; [heap_lookup|].
        split; [done|]. eexists. split; [heap_lookup|].
        split; [done|]. eexists. split; [heap_lookup|].
        eapply dlseg_frame; [|exact Hrest]. frame_away.
      * simpl. rewrite !NoDup_cons, !not_elem_of_cons. intuition congruence.
Qed.

Lemma removeTag_only h t i :
  h !! t = Some (mkTag nil nil i) -> removeTag (Some t) h = Ok (true, h).
Proof. intros Ht. unfold removeTag. exec. reflexivity. Qed.

Lemma removeTag_slide h t i s j rest :
  dlist h (Some t) ((t, i) :: (s, j) :: rest) ->
  exists n h',
    removeTag (Some t) h = Ok (false, h') /\
    h !! s = Some (mkTag (Some t) n j) /\
    h' !! t = Some (mkTag nil n j) /\
    (forall nl, n = Some nl -> prev <$> h' !! nl = Some (Some t)) /\
    h' !! s = Some (mkTag nil nil j) /\
    dlist h' (Some t) ((t, j) :: rest).
Proof.
  intros [Hseg Hnd]. simpl in Hseg, Hnd.
  destruct Hseg as (_ & ? & Ht & -> & n & Hs & Hrest).
  apply NoDup_cons in Hnd as [Ht_rest Hnd].
  apply NoDup_cons in Hnd as [Hs_rest Hnd].
  apply not_elem_of_cons in Ht_rest as [Hts Ht_rest].
  exists n. unfold removeTag.
  destruct rest as [|[nl inl] rest]; simpl in Hrest.
  - subst n. exec. eexists. split; [reflexivity|].
    split; [done|]. split; [heap_lookup|]. split; [done|].
    split; [heap_lookup|]. split; [|simpl; apply NoDup_singleton].
    simpl. split; [done|]. eexists. split; [heap_lookup|]. done.
  - destruct Hrest as (-> & nn & Hnl & Hrest). simpl in Hnd, Hs_rest, Ht_rest.
    apply NoDup_cons in Hnd as [Hnl_rest Hnd].
    apply not_elem_of_cons in Hs_rest as [Hsnl Hs_rest].
    apply not_elem_of_cons in Ht_rest as [Htnl Ht_rest].
    exec. eexists. split; [reflexivity|].
    split; [done|]. split; [heap_lookup|].
    split; [intros ? [= <-]; by rewrite lookup_insert_ne, lookup_insert_ne, lookup_insert_eq|].
    split; [heap_lookup|]. split.
    + simpl. split; [done|]. eexists. split; [heap_lookup|].
      split; [done|]. eexists. split; [heap_lookup|].
      eapply dlseg_frame; [|exact Hrest]. frame_away.
    + simpl. rewrite !NoDup_cons, !not_elem_of_cons. intuition congruence.
Qed.

Lemma removeTag_inner h hd l1 p ip t i l2 :
  dlist h hd (l1 ++ (p, ip) :: (t, i) :: l2) ->
  exists h',
    removeTag (Some t) h = Ok (false, h') /\
    h' !! t = Some (mkTag nil nil i) /\
    dlist h' hd (l1 ++ (p, ip) :: l2).
Proof.
  intros [Hseg Hnd].
  apply dlseg_app in Hseg as (m & H1 & H2). simpl in H2.
  destruct H2 as (-> & ? & Hp & -> & n & Ht & Hrest).
  rewrite fmap_app in Hnd. simpl in Hnd.
  apply NoDup_app in Hnd as (Hnd1 & Hdisj & Hnd).
  apply NoDup_cons in Hnd as [Hp_rest Hnd].
  apply NoDup_cons in Hnd as [Ht_rest Hnd].
  apply not_elem_of_cons in Hp_rest as [Hpt Hp_rest].
  unfold removeTag.
  destruct l2 as [|[nl inl] l2]; simpl in Hrest.
  - subst n. exec. eexists. split; [reflexivity|]. split; [heap_lookup|].
    split.
    + apply dlseg_app. exists (Some p). split.
      * eapply dlseg_frame; [|exact H1]. intros l Hl. specialize (Hdisj l Hl).
        simpl in Hdisj. rewrite !not_elem_of_cons in Hdisj.
        rewrite !lookup_insert_ne by intuition congruence. done.
      * simpl. split; [done|]. eexists. split; [heap_lookup|]. done.
    + rewrite fmap_app. simpl. apply NoDup_app. split; [done|].
      split; [|apply NoDup_singleton].
      intros l Hl. specialize (Hdisj l Hl). simpl in Hdisj.
        rewrite !not_elem_of_cons in Hdisj.
      rewrite not_elem_of_cons. tauto.
  - destruct Hrest as (-> & nn & Hnl & Hrest). simpl in Hnd, Hp_rest, Ht_rest.
    apply NoDup_cons in Hnd as [Hnl_rest Hnd].
    apply not_elem_of_cons in Hp_rest as [Hpnl Hp_rest].
    apply not_elem_of_cons in Ht_rest as [Htnl Ht_rest].
    exec. eexists. split; [reflexivity|]. split; [heap_lookup|].
    split.
    + apply dlseg_app. exists (Some p). split.
      * eapply dlseg_frame; [|exact H1]. intros l Hl. specialize (Hdisj l Hl).
        simpl in Hdisj. rewrite !not_elem_of_cons in Hdisj.
        rewrite !lookup_insert_ne by intuition congruence. done.
      * simpl. split; [done|]. eexists. split; [heap_lookup|].
        split; [done|]. eexists. split; [heap_lookup|].
        eapply dlseg_frame; [|exact Hrest]. frame_away.
    + rewrite fmap_app. simpl. apply NoDup_app. split; [done|]. split.
      * intros l Hl. specialize (Hdisj l Hl). simpl in Hdisj.
        rewrite !not_elem_of_cons in Hdisj.
        rewrite !not_elem_of_cons. tauto.
      * rewrite !NoDup_cons, !not_elem_of_cons. intuition congruence.
Qed.

Lemma dlseg_lookup h p s ls e l i :
  dlseg h p s ls e -> (l, i) ∈ ls -> exists q n, h !! l = Some (mkTag q n i).
Proof.
  revert p s. induction ls as [|[l' i'] ls IH]; intros p s; simpl.
  - intros _ H. inversion H.
  - intros (-> & n & Hl & Hrest) Hin.
    apply elem_of_cons in Hin as [[= -> ->]|Hin]; [eauto|]. eapply IH; eauto.
Qed.

Lemma dlist_head h hd ls :
  dlist h hd ls ->
  match ls with [] => hd = nil | (l, _) :: _ => hd = Some l end.
Proof. intros [Hseg _]. destruct ls as [|[l i] ls]; simpl in Hseg; tauto. Qed.

(** *** Draining a list through its head *)

Lemma drain_snoc k hd h bs hk b h' :
  drain k hd h = Ok (bs, hk) -> removeTag hd hk = Ok (b, h') ->
  drain (S k) hd h = Ok (bs ++ [b], h').
Proof.
  revert h bs. induction k as [|k IH]; intros h bs; simpl.
  - intros [= <- <-] Hr. unfold bind. now rewrite Hr.
  - unfold bind at 1. destruct (removeTag hd h) as [[b0 h0]| |] eqn:Hr0; try discriminate.
    unfold bind at 1. destruct (drain k hd h0) as [[bs0 h1]| |] eqn:Hd; try discriminate.
    intros [= <- <-] Hr. specialize (IH _ _ Hd Hr).
    unfold bind at 1. rewrite Hr0. unfold bind at 1.
    change (b <- removeTag hd;; bs <- drain k hd;; ret (b :: bs)) with (drain (S k) hd).
    rewrite IH. reflexivity.
Qed.

Lemma drain_slides hd k : forall h ls,
  dlist h (Some hd) ls -> (k < length ls)%nat ->
  exists hk ls',
    drain k (Some hd) h = Ok (replicate k false, hk) /\
    dlist hk (Some hd) ls' /\ ls'.*2 = drop k ls.*2.
Proof.
  induction k as [|k IH]; intros h ls Hl Hk.
  - exists h, ls. simpl. rewrite drop_0. done.
  - pose proof (dlist_head _ _ _ Hl) as Hhd.
    destruct ls as [|[l i] [|[s j] rest]]; simpl in Hk; try lia.
    injection Hhd as <-.
    destruct (removeTag_slide _ _ _ _ _ _ Hl) as (n & h1 & Hr & _ & _ & _ & _ & Hl1).
    destruct (IH h1 _ Hl1) as (hk & ls' & Hd & Hlk & Hidx); [simpl; lia|].
    exists hk, ls'. split; [|done].
    simpl. unfold bind at 1. rewrite Hr. unfold bind at 1. rewrite Hd. reflexivity.
Qed.

(** C2.  Head stability.  For a non-empty list owned through [hd]:
    every removal of the current head but the last returns [false] and
    leaves the same pointer [hd] heading a well-formed list of the
    remaining rows; the call that removes the last remaining tag, and only
    that one, returns [true].  When the head has a successor [s], the
    removal slides [s]'s index and [next] link into [hd], points the new
    [next]'s [prev] back at [hd] and clears [s]. *)
Theorem removeTag_head_stable (h : heap) (hd : loc) (ls : list (loc * Z)) :
  dlist h (Some hd) ls ->
  (forall k, (k < length ls)%nat ->
     exists hk ls',
       drain k (Some hd) h = Ok (replicate k false, hk) /\
       dlist hk (Some hd) ls' /\ ls'.*2 = drop k ls.*2) /\
  (exists h',
     drain (length ls) (Some hd) h =
       Ok (replicate (length ls - 1) false ++ [true], h')) /\
  (forall i s j rest, ls = (hd, i) :: (s, j) :: rest ->
     exists n h',
       removeTag (Some hd) h = Ok (false, h') /\
       h !! s = Some (mkTag (Some hd) n j) /\
       h' !! hd = Some (mkTag nil n j) /\
       (forall nl, n = Some nl -> prev <$> h' !! nl = Some (Some hd)) /\
       h' !! s = Some (mkTag nil nil j)).
Proof.
  intros Hl. split; [|split].
  - intros k Hk. eapply drain_slides; eauto.
  - pose proof (dlist_head _ _ _ Hl) as Hhd.
    destruct ls as [|x ls0]; [discriminate|].
    set (ls := x :: ls0) in *.
    assert (length ls - 1 < length ls)%nat as Hk by (simpl; lia).
    destruct (drain_slides hd _ _ _ Hl Hk) as (hk & ls' & Hd & Hlk & Hidx).
    assert (length ls' = 1%nat) as Hlen.
    { rewrite <- (length_fmap snd ls'), Hidx, length_drop, length_fmap.
      simpl. lia. }
    pose proof (dlist_head _ _ _ Hlk) as Hhd'.
    destruct ls' as [|[l i] [|? ?]]; try discriminate. injection Hhd' as <-.
    destruct Hlk as [(_ & n & Hlook & ->) _].
    exists hk. replace (length ls) with (S (length ls - 1)) at 1 by (simpl; lia).
    eapply drain_snoc; [exact Hd|]. eapply removeTag_only; eauto.
  - intros i s j rest ->.
    destruct (removeTag_slide _ _ _ _ _ _ Hl) as (n & h' & ? & ? & ? & ? & ? & ?).
    exists n, h'. done.
Qed.

(** C3.  [addTag head i] allocates a tag not yet in the heap, gives it
    the index [i] and returns it.  With a [nil] head the new tag has no
    links and nothing else changes.  With a head [hd] the new tag is
    spliced right after it: its [next] is the head's old [next], its
    [prev] is [hd], the head's [next] is the new tag, and the tag that
    followed the head, if any, gets the new tag as its [prev]; no other
    field of any tag changes. *)
Theorem addTag_splices (h : heap) (head : ptr) (i : Z) :
  closed h -> valid_ptr h head ->
  exists t h',
    addTag head i h = Ok (Some t, h') /\ h !! t = None /\
    match head with
    | None => h' = <[t := mkTag nil nil i]> h
    | Some hd =>
        exists hdv, h !! hd = Some hdv /\
          h' !! t = Some (mkTag (Some hd) (next hdv) i) /\
          next <$> h' !! hd = Some (Some t) /\
          (forall n, next hdv = Some n -> prev <$> h' !! n = Some (Some t)) /\
          (forall l v, h !! l = Some v ->
             exists v', h' !! l = Some v' /\ idx v' = idx v /\
               (l <> hd -> next v' = next v) /\
               (next hdv <> Some l -> prev v' = prev v))
    end.
Proof.
  intros Hcl Hhead.
  pose proof (fresh_unallocated h) as Hf.
  exists (fresh (dom h)). unfold addTag. unfold bind at 1. rewrite new_ok.
  set (t := fresh (dom h)) in *. cbv beta iota.
  destruct head as [hd|].
  - destruct Hhead as [hdv Hhd].
    assert (t <> hd) as Hthd by congruence.
    destruct (Hcl _ _ Hhd) as [_ Hn].
    destruct (next hdv) as [n|] eqn:En.
    + destruct Hn as [nv Hnv]. assert (t <> n) as Htn by congruence.
      destruct (decide (n = hd)) as [->|Hnhd].
      * assert (nv = hdv) as -> by congruence. clear Hnv.
        exec. rewrite En. exec. eexists. split; [reflexivity|]. split; [done|].
        exists hdv. split; [done|]. rewrite En. split; [heap_lookup|].
        split; [by rewrite lookup_insert_eq|].
        split; [intros ? [= <-]; by rewrite lookup_insert_eq|].
        intros l v Hl. destruct (decide (l = hd)) as [->|Hne].
        -- rewrite lookup_insert_eq. eexists. split; [reflexivity|].
           simplify_eq. simpl. split; [done|]. split; [done|]. congruence.
        -- assert (l <> t) by congruence.
           rewrite !lookup_insert_ne by congruence. eauto.
      * exec. rewrite En. exec. eexists. split; [reflexivity|]. split; [done|].
        exists hdv. split; [done|]. rewrite En. split; [heap_lookup|].
        split; [by rewrite lookup_insert_ne, !lookup_insert_ne, lookup_insert_eq by congruence|].
        split; [intros ? [= <-]; by rewrite lookup_insert_eq|].
        intros l v Hl. assert (l <> t) by congruence.
        destruct (decide (l = n)) as [->|Hln]; [|destruct (decide (l = hd)) as [->|Hlhd]].
        -- rewrite lookup_insert_eq. eexists. split; [reflexivity|].
           simplify_eq. simpl. split; [done|]. split; [done|]. congruence.
        -- rewrite lookup_insert_ne, !lookup_insert_ne, lookup_insert_eq by congruence.
           eexists. split; [reflexivity|]. simplify_eq. simpl. done.
        -- rewrite !lookup_insert_ne by congruence. eauto.
    + exec. rewrite En. exec. eexists. split; [reflexivity|]. split; [done|].
      exists hdv. split; [done|]. rewrite En. split; [heap_lookup|].
      split; [by rewrite !lookup_insert_ne, lookup_insert_eq by congruence|].
      split; [done|].
      intros l v Hl. assert (l <> t) by congruence.
      destruct (decide (l = hd)) as [->|Hlhd].
      * rewrite !lookup_insert_ne, lookup_insert_eq by congruence.
        eexists. split; [reflexivity|]. simplify_eq. simpl. done.
      * rewrite !lookup_insert_ne by congruence. eauto.
  - exec. eexists. split; [reflexivity|]. done.
Qed.

(** C9.  On a tag with neither predecessor nor successor [removeTag]
    returns [true] and leaves the whole heap, the fields of the tag
    included, as it was: clearing the head is left to the caller. *)
Theorem removeTag_last_no_mutation (h : heap) (t : loc) (i : Z) :
  h !! t = Some (mkTag nil nil i) ->
  removeTag (Some t) h = Ok (true, h).
Proof. apply removeTag_only. Qed.

(** *** The invariant of the owner *)

Lemma good_start : good start.
Proof.
  exists []. split; [|split]; [|constructor|reflexivity].
  split; [reflexivity|constructor].
Qed.

Lemma good_add w i :
  good w -> i ∉ rows w ->
  exists w', do_op owner_add (Add i) w = Ok w' /\ good w'.
Proof.
  intros (ls & Hl & Hnd & Hrows) Hi. destruct w as [[h hd] rs]. simpl in *.
  destruct (addTag_dlist _ _ _ i Hl) as (t & h' & Hadd & Hfresh & Hl').
  assert (i ∉ ls.*2) as Hi' by (rewrite <- Hrows in Hi; set_solver).
  unfold owner_add, bind, get, on_heap. simpl. rewrite Hadd. simpl.
  destruct hd as [hd|]; simpl in *.
  - eexists. split; [reflexivity|]. eexists. split; [exact Hl'|].
    pose proof (dlist_head _ _ _ Hl) as Hhd.
    destruct ls as [|[l i0] rest]; [discriminate|]. simpl in *.
    split.
    + apply NoDup_cons in Hnd as [? ?]. apply not_elem_of_cons in Hi' as [? ?].
      rewrite !NoDup_cons, !not_elem_of_cons. intuition congruence.
    + rewrite <- Hrows. set_solver.
  - eexists. split; [reflexivity|]. eexists. split; [exact Hl'|].
    pose proof (dlist_head _ _ _ Hl) as Hhd.
    destruct ls as [|[l i0] rest]; [|discriminate]. simpl in *.
    split; [apply NoDup_singleton|]. rewrite <- Hrows. set_solver.
Qed.

Lemma rows_without (l1 l2 : list Z) (i : Z) :
  NoDup (l1 ++ i :: l2) ->
  (list_to_set (l1 ++ i :: l2) : gset Z) ∖ {[i]} = list_to_set (l1 ++ l2).
Proof.
  intros Hnd. apply NoDup_app in Hnd as (_ & Hdisj & Hnd).
  apply NoDup_cons in Hnd as [Hi2 _].
  assert (i ∉ l1) as Hi1.
  { intros Hin. apply (Hdisj _ Hin). by constructor. }
  apply set_eq. intros x.
  rewrite elem_of_difference, !elem_of_list_to_set, !elem_of_app,
    elem_of_cons, elem_of_singleton.
  split; [tauto|]. intros [H|H]; (split; [tauto|]); congruence.
Qed.

Lemma good_remove w t :
  good w -> t ∈ (linked (st w)).*1 ->
  exists w', do_op owner_add (Remove t) w = Ok w' /\ good w'.
Proof.
  intros (ls & Hl & Hnd & Hrows) Ht. destruct w as [[h hd] rs]. simpl in *.
  rewrite (dlist_linked _ _ _ Hl) in Ht.
  apply list_elem_of_fmap in Ht as ([t' i] & -> & Hin). simpl.
  destruct (dlseg_lookup _ _ _ _ _ _ _ (proj1 Hl) Hin) as (q & n & Hlook).
  apply list_elem_of_split in Hin as (l1 & l2 & ->).
  assert (idx_at (mkIndex h hd) t' = i) as Hidx.
  { unfold idx_at. simpl. now rewrite Hlook. }
  rewrite Hidx. rewrite fmap_app in Hnd, Hrows. simpl in Hnd, Hrows.
  rewrite <- Hrows, (rows_without _ _ _ Hnd).
  assert (NoDup (l1.*2 ++ l2.*2)) as Hnd'.
  { apply NoDup_app in Hnd as (? & Hd & Hn). apply NoDup_cons in Hn as [? ?].
    apply NoDup_app. split; [done|]. split; [|done].
    intros x Hx Hx2. apply (Hd x Hx). by constructor. }
  unfold owner_remove, bind, on_heap. simpl.
  destruct l1 as [|x l1 _] using rev_ind.
  - simpl in *. pose proof (dlist_head _ _ _ Hl) as ->.
    destruct l2 as [|[s j] rest].
    + destruct Hl as [(_ & n' & Hlook' & ->) _].
      rewrite (removeTag_only _ _ _ Hlook'). simpl.
      eexists. split; [reflexivity|]. exists []. simpl.
      split; [|split; [constructor|reflexivity]].
      split; [reflexivity|constructor].
    + destruct (removeTag_slide _ _ _ _ _ _ Hl) as (n' & h' & Hr & _ & _ & _ & _ & Hl').
      rewrite Hr. simpl. eexists. split; [reflexivity|].
      exists ((t', j) :: rest). simpl. done.
  - destruct x as [p ip]. rewrite <- app_assoc in Hl. simpl in Hl.
    destruct (removeTag_inner _ _ _ _ _ _ _ _ Hl) as (h' & Hr & _ & Hl').
    rewrite Hr. simpl. eexists. split; [reflexivity|].
    exists ((l1 ++ [(p, ip)]) ++ l2). simpl.
    rewrite <- app_assoc. simpl. split; [done|].
    rewrite !fmap_app in *. simpl in *. rewrite <- !app_assoc in *. simpl. done.
Qed.

Lemma good_play ops : forall w,
  good w -> legal owner_add ops w ->
  exists w', play owner_add ops w = Ok w' /\ good w'.
Proof.
  induction ops as [|o ops IH]; intros w Hw Hlegal; simpl in *.
  - eauto.
  - destruct Hlegal as [Ho Hlegal].
    assert (exists w1, do_op owner_add o w = Ok w1 /\ good w1) as (w1 & E & Hw1).
    { destruct o; [apply good_add | apply good_remove]; done. }
    rewrite E in *. apply IH; done.
Qed.

(** C1, amended.  From the empty list, after every sequence of owner
    operations in which a row is added only while it does not hold the
    value and only linked tags are removed, the owner keeping the first tag
    as its head: every operation returns, the walk along [next] from the
    head ends at [nil] within the size of the heap (no cycle), visits
    pairwise distinct tags with pairwise distinct indices, and the set of
    these indices is the set of rows added and not yet removed. *)
Theorem tag_index_invariant (ops : list op) :
  legal owner_add ops start ->
  exists w ls,
    play owner_add ops start = Ok w /\
    walk (size (hp (st w))) (hp (st w)) (head (st w)) = Some ls /\
    NoDup ls.*1 /\ NoDup ls.*2 /\
    list_to_set ls.*2 = rows w.
Proof.
  intros Hlegal.
  destruct (good_play ops start good_start Hlegal) as (w & Hplay & ls & Hl & Hnd & Hrows).
  exists w, ls. split; [done|]. split; [|destruct Hl; done].
  destruct Hl as [Hseg Hndl]. eapply walk_dlseg; eauto using dlseg_length.
Qed.

Lemma tag_index_invariant_witness :
  exists w ls,
    play owner_add history start = Ok w /\
    walk (size (hp (st w))) (hp (st w)) (head (st w)) = Some ls /\
    NoDup ls.*1 /\ NoDup ls.*2 /\
    list_to_set ls.*2 = rows w.
Proof.
  apply (tag_index_invariant history).
  apply (bool_decide_unpack _). vm_compute. reflexivity.
Defined.

(** C1 as stated fails for the owner the spec describes, which takes the
    tag returned by [addTag] as its new head: after adding rows 1 and 2
    the walk from the head visits row 2 only, although row 1 was added and
    never removed. *)
Lemma spec_owner_loses_rows :
  exists w,
    play spec_owner_add [Add 1; Add 2] start = Ok w /\
    legal spec_owner_add [Add 1; Add 2] start /\
    head (st w) = Some 2%positive /\
    walk (size (hp (st w))) (hp (st w)) (head (st w)) = Some [(2%positive, 2)] /\
    1 ∈ rows w /\ 1 ∉ (linked (st w)).*2.
Proof.
  eexists. split; [vm_compute; reflexivity|].
  split; [apply (bool_decide_unpack _); vm_compute; reflexivity|].
  split; [reflexivity|]. split; [vm_compute; reflexivity|].
  split; apply (bool_decide_unpack _); vm_compute; reflexivity.
Qed.

(** Without the condition on additions the indices repeat: a row added
    twice is linked twice. *)
Example owner_add_twice_duplicates :
  exists w,
    play owner_add [Add 5; Add 5] start = Ok w /\
    (linked (st w)).*2 = [5; 5].
Proof. eexists. split; vm_compute; reflexivity. Qed.

Lemma three_dlist : dlist three (Some 1%positive) three_links.
Proof.
  split.
  - simpl. split; [reflexivity|]. eexists. split; [reflexivity|].
    split; [reflexivity|]. eexists. split; [reflexivity|].
    split; [reflexivity|]. eexists. split; [reflexivity|]. reflexivity.
  - apply (bool_decide_unpack _). vm_compute. reflexivity.
Qed.

Lemma removeTag_head_stable_witness :
  exists h',
    drain 3 (Some 1%positive) three = Ok ([false; false; true], h').
Proof.
  destruct (removeTag_head_stable three 1%positive three_links three_dlist)
    as (_ & H & _).
  exact H.
Defined.

Lemma addTag_splices_witness :
  exists t h',
    addTag (Some 1%positive) 9 three = Ok (Some t, h') /\
    h' !! t = Some (mkTag (Some 1%positive) (Some 3%positive) 9) /\
    next <$> h' !! 1%positive = Some (Some t) /\
    prev <$> h' !! 3%positive = Some (Some t).
Proof.
  assert (closed three) as Hc by (apply (bool_decide_unpack _); vm_compute; reflexivity).
  assert (valid_ptr three (Some 1%positive)) as Hv by (vm_compute; eauto).
  destruct (addTag_splices three (Some 1%positive) 9 Hc Hv)
    as (t & h' & Hadd & _ & hdv & Hhd & Ht & Hn & Hp & _).
  vm_compute in Hhd. injection Hhd as <-.
  exists t, h'. split; [exact Hadd|]. split; [exact Ht|]. split; [exact Hn|].
  apply Hp. reflexivity.
Defined.

Lemma removeTag_last_no_mutation_witness :
  removeTag (Some 1%positive) {[1%positive := mkTag nil nil 5]} =
    Ok (true, {[1%positive := mkTag nil nil 5]}).
Proof. apply (removeTag_last_no_mutation _ 1%positive 5). reflexivity. Defined.
(** *** Further properties of the list operations *)

(** X1.  Adding to a well-formed list keeps it well-formed: the new tag
    sits at a location that was not in use, becomes the only tag of a list
    that was empty and otherwise follows the head directly, the head
    staying what it was; the walk from the head visits exactly the old
    tags and the new one. *)
Theorem addTag_extends_list (h : heap) (hd : ptr) (ls : list (loc * Z)) (i : Z) :
  dlist h hd ls ->
  exists t h',
    addTag hd i h = Ok (Some t, h') /\ h !! t = None /\
    let hd' := if is_nil hd then Some t else hd in
    let ls' := match ls with [] => [(t, i)] | x :: rest => x :: (t, i) :: rest end in
    dlist h' hd' ls' /\ walk (size h') h' hd' = Some ls'.
Proof.
  intros Hl. destruct (addTag_dlist _ _ _ i Hl) as (t & h' & Hadd & Hfresh & Hl').
  exists t, h'. split; [done|]. split; [done|]. simpl. split; [done|].
  destruct Hl' as [Hseg Hnd]. eapply walk_dlseg; eauto using dlseg_length.
Qed.

Lemma addTag_extends_list_witness :
  exists t h',
    addTag (Some 1%positive) 9 three = Ok (Some t, h') /\
    walk (size h') h' (Some 1%positive)
      = Some [(1%positive, 1); (t, 9); (3%positive, 3); (2%positive, 2)].
Proof.
  destruct (addTag_extends_list three (Some 1%positive) three_links 9 three_dlist)
    as (t & h' & Hadd & _ & _ & Hwalk).
  exists t, h'. split; [exact Hadd|exact Hwalk].
Defined.

(** X2.  Removing a tag that has a predecessor unlinks exactly that tag:
    the call answers [false], the other tags stay linked in their order
    from the same head, and the removed tag keeps its index but loses both
    links. *)
Theorem removeTag_unlinks_inner (h : heap) (hd : ptr)
    (l1 l2 : list (loc * Z)) (p t : loc) (ip i : Z) :
  dlist h hd (l1 ++ (p, ip) :: (t, i) :: l2) ->
  exists h',
    removeTag (Some t) h = Ok (false, h') /\
    h' !! t = Some (mkTag nil nil i) /\
    dlist h' hd (l1 ++ (p, ip) :: l2) /\
    walk (size h') h' hd = Some (l1 ++ (p, ip) :: l2).
Proof.
  intros Hl. destruct (removeTag_inner _ _ _ _ _ _ _ _ Hl) as (h' & Hr & Ht & Hl').
  exists h'. split; [done|]. split; [done|]. split; [done|].
  destruct Hl' as [Hseg Hnd]. eapply walk_dlseg; eauto using dlseg_length.
Qed.

Lemma removeTag_unlinks_inner_witness :
  exists h',
    removeTag (Some 3%positive) three = Ok (false, h') /\
    walk (size h') h' (Some 1%positive) = Some [(1%positive, 1); (2%positive, 2)].
Proof.
  destruct (removeTag_unlinks_inner three (Some 1%positive) [] [(2%positive, 2)]
              1%positive 3%positive 1 3 three_dlist)
    as (h' & Hr & _ & _ & Hwalk).
  exists h'. split; [exact Hr|exact Hwalk].
Defined.

Lemma removeTag_linked h hd l1 t i l2 :
  dlist h hd (l1 ++ (t, i) :: l2) ->
  exists b h' ls',
    removeTag (Some t) h = Ok (b, h') /\
    (b = true <-> l1 = [] /\ l2 = []) /\
    dlist h' (if b then nil else hd) ls' /\
    ls'.*2 = l1.*2 ++ l2.*2.
Proof.
  intros Hl. destruct l1 as [|x l1 _] using rev_ind.
  - simpl in *. pose proof (dlist_head _ _ _ Hl) as ->.
    destruct l2 as [|[s j] rest].
    + destruct Hl as [(_ & n' & Hlook' & ->) _].
      exists true, h, []. rewrite (removeTag_only _ _ _ Hlook').
      split; [done|]. split; [done|]. split; [|done].
      split; [reflexivity|constructor].
    + destruct (removeTag_slide _ _ _ _ _ _ Hl) as (n' & h' & Hr & _ & _ & _ & _ & Hl').
      exists false, h', ((t, j) :: rest). split; [done|].
      split; [split; [done|intros [_ [=]]]|]. done.
  - destruct x as [p ip]. rewrite <- app_assoc in Hl. simpl in Hl.
    destruct (removeTag_inner _ _ _ _ _ _ _ _ Hl) as (h' & Hr & _ & Hl').
    exists false, h', (l1 ++ (p, ip) :: l2). split; [done|].
    split; [split; [done|intros [E _]; by destruct l1]|].
    split; [done|]. rewrite !fmap_app. simpl. rewrite <- app_assoc. done.
Qed.

(** X3.  Removing any tag of a well-formed list returns, and answers
    [true] exactly when that tag was the only one; otherwise the same head
    still heads a well-formed list, one tag shorter, that carries the
    other indices in their order.  (Removing the head slides the second
    index into the head's tag, so the tags may differ, not the indices.) *)
Theorem removeTag_emptied_iff_single (h : heap) (hd : ptr)
    (ls : list (loc * Z)) (t : loc) :
  dlist h hd ls -> t ∈ ls.*1 ->
  exists l1 i l2 b h' ls',
    ls = l1 ++ (t, i) :: l2 /\
    removeTag (Some t) h = Ok (b, h') /\
    (b = true <-> length ls = 1%nat) /\
    dlist h' (if b then nil else hd) ls' /\
    ls'.*2 = l1.*2 ++ l2.*2.
Proof.
  intros Hl Ht. apply list_elem_of_fmap in Ht as ([t' i] & -> & Hin).
  apply list_elem_of_split in Hin as (l1 & l2 & ->). simpl.
  destruct (removeTag_linked _ _ _ _ _ _ Hl) as (b & h' & ls' & Hr & Hb & Hl' & Hidx).
  exists l1, i, l2, b, h', ls'. split; [done|]. split; [done|].
  split; [|done]. rewrite Hb, length_app. simpl. split.
  - intros [-> ->]. done.
  - intros Hlen. destruct l1, l2; simpl in Hlen; try lia. done.
Qed.

Lemma removeTag_emptied_iff_single_witness :
  exists l1 i l2 b h' ls',
    three_links = l1 ++ (1%positive, i) :: l2 /\
    removeTag (Some 1%positive) three = Ok (b, h') /\
    (b = true <-> length three_links = 1%nat) /\
    dlist h' (if b then nil else Some 1%positive) ls' /\
    ls'.*2 = l1.*2 ++ l2.*2.
Proof.
  apply (removeTag_emptied_iff_single three (Some 1%positive) three_links
           1%positive three_dlist).
  apply (bool_decide_unpack _). vm_compute. reflexivity.
Defined.

Ltac same_lookup :=
  repeat first [ rewrite lookup_insert_eq | rewrite lookup_insert_ne by done ];
  repeat match goal with H : _ !! _ = Some _ |- _ => rewrite H end;
  reflexivity.

(** X4.  Adding a tag to a list and removing that tag again leaves every
    tag that existed before exactly as it was: the heap after the two
    calls is the heap before them plus the new tag, unlinked.  With a
    head the removal answers [false]; on the empty list it answers [true]
    and changes nothing. *)
Theorem addTag_removeTag_round_trip (h : heap) (hd : ptr)
    (ls : list (loc * Z)) (i : Z) :
  dlist h hd ls ->
  exists t h',
    addTag hd i h = Ok (Some t, h') /\
    removeTag (Some t) h' = Ok (is_nil hd, <[t := mkTag nil nil i]> h).
Proof.
  intros [Hseg Hnd].
  pose proof (fresh_unallocated h) as Hf.
  pose proof (dlseg_fresh _ _ _ _ _ _ Hseg Hf) as Hnew.
  exists (fresh (dom h)). unfold addTag. unfold bind at 1. rewrite new_ok.
  set (t := fresh (dom h)) in *. cbv beta iota.
  destruct ls as [|[l i0] rest]; simpl in Hseg.
  - subst hd. exec. eexists. split; [reflexivity|].
    apply (removeTag_only _ t i). by rewrite lookup_insert_eq.
  - destruct Hseg as (-> & n & Hl & Hrest).
    simpl in Hnd, Hnew. apply NoDup_cons in Hnd as [Hl_rest Hnd].
    apply not_elem_of_cons in Hnew as [Htl Hnew].
    destruct rest as [|[nl inl] rest]; simpl in Hrest.
    + subst n. exec. eexists. split; [reflexivity|].
      unfold removeTag. exec. unfold ret. do 2 f_equal.
      apply map_eq. intros k.
      destruct (decide (k = t)) as [->|Hkt]; [by rewrite !lookup_insert_eq|].
      destruct (decide (k = l)) as [->|Hkl]; same_lookup.
    + destruct Hrest as (-> & nn & Hnl & Hrest).
      simpl in Hnd, Hnew, Hl_rest.
      apply NoDup_cons in Hnd as [Hnl_rest Hnd].
      apply not_elem_of_cons in Hnew as [Htnl Hnew].
      apply not_elem_of_cons in Hl_rest as [Hlnl Hl_rest].
      exec. eexists. split; [reflexivity|].
      unfold removeTag. exec. unfold ret. do 2 f_equal.
      apply map_eq. intros k.
      destruct (decide (k = t)) as [->|Hkt]; [by rewrite !lookup_insert_eq|].
      destruct (decide (k = nl)) as [->|Hknl]; [same_lookup|].
      destruct (decide (k = l)) as [->|Hkl]; same_lookup.
Qed.

Lemma addTag_removeTag_round_trip_witness :
  exists t h',
    addTag (Some 1%positive) 9 three = Ok (Some t, h') /\
    removeTag (Some t) h' = Ok (false, <[t := mkTag nil nil 9]> three).
Proof.
  apply (addTag_removeTag_round_trip three (Some 1%positive) three_links 9
           three_dlist).
Defined.

End Tag.

(** ** parser/lexer.go *)

Module Lexer.

(** [type tokenType uint8], the constants in the order of the source. *)
Inductive tokenType :=
  | tokenTypeError
  | tokenTypeEOF
  | tokenTypeCmdHelp
  | tokenTypeCmdStatus
  | tokenTypeCmdStop
  | tokenTypeCmdStart
  | tokenTypeSqlCreate
  | tokenTypeSqlTable
  | tokenTypeSqlInsert
  | tokenTypeSqlInto
  | tokenTypeSqlUpdate
  | tokenTypeSqlDelete
  | tokenTypeSqlFrom
  | tokenTypeSqlSelect
  | tokenTypeSqlSubscribe
  | tokenTypeSqlUnsubscribe
  | tokenTypeSqlWhere
  | tokenTypeSqlStar
  | tokenTypeSqlEqual
  | tokenTypeSqlLeftParenthesis
  | tokenTypeSqlRightParenthesis
  | tokenTypeSqlComma
  | tokenTypeSqlId
  | tokenTypeSqlValue
  | tokenTypeSqlAnsiQuote
  | tokenTypeSqlString
  | tokenTypeWhiteSpace.

#[global] Instance tokenType_eq_dec : EqDecision tokenType.
Proof. solve_decision. Defined.

(** [type token struct { typ tokenType; val string }] *)
Record token := mkToken { typ : tokenType; val : string }.

#[global] Instance token_eq_dec : EqDecision token.
Proof. solve_decision. Defined.

(** [type lexer struct].  The consumer behind [tokens] is modelled by the
    list of the tokens it has been handed, oldest first. *)
Record lexer := mkLexer {
  input : string;
  start : Z;
  pos : Z;
  width : Z;
  tokens : list token
}.

(** [type stateFn], a function from the lexer to the next [stateFn]: the state functions of the file
    by name; [nil] is [None]. *)
Inductive stateFn :=
  | LexCommand
  | LexSqlInsertInto
  | LexSqlInsertIntoTable
  | LexSqlInsertIntoTableLeftParenthesis.

(** *** Go strings and runes *)

Definition len (s : string) : Z := Z.of_nat (String.length s).

(** [s[lo:hi]]; out of range it panics. *)
Definition slice (s : string) (lo hi : Z) : result string :=
  if (0 <=? lo) && (lo <=? hi) && (hi <=? len s)
  then Ok (String.substring (Z.to_nat lo) (Z.to_nat (hi - lo)) s)
  else Panic "slice bounds out of range".

Definition byte (c : ascii) : Z := Z.of_N (N_of_ascii c).

Definition RuneError : Z := 0xFFFD.

Definition continuation (c : Z) : bool := (0x80 <=? c) && (c <? 0xC0).

(** [utf8.DecodeRuneInString]: the first rune of [s] and its width in
    bytes; [(RuneError, 0)] for the empty string and [(RuneError, 1)] for
    an invalid encoding (a stray or missing continuation byte, an overlong
    form, a surrogate, a value above U+10FFFF). *)
Definition DecodeRuneInString (s : string) : Z * Z :=
  match s with
  | EmptyString => (RuneError, 0)
  | String b0 s1 =>
      let c0 := byte b0 in
      if c0 <? 0x80 then (c0, 1)
      else if c0 <? 0xC0 then (RuneError, 1)
      else
        match s1 with
        | EmptyString => (RuneError, 1)
        | String b1 s2 =>
            let c1 := byte b1 in
            if negb (continuation c1) then (RuneError, 1)
            else if c0 <? 0xE0 then
              let r := Z.lor (Z.shiftl (Z.land c0 0x1F) 6) (Z.land c1 0x3F) in
              if r <=? 0x7F then (RuneError, 1) else (r, 2)
            else
              match s2 with
              | EmptyString => (RuneError, 1)
              | String b2 s3 =>
                  let c2 := byte b2 in
                  if negb (continuation c2) then (RuneError, 1)
                  else if c0 <? 0xF0 then
                    let r := Z.lor (Z.lor (Z.shiftl (Z.land c0 0x0F) 12)
                                          (Z.shiftl (Z.land c1 0x3F) 6))
                                   (Z.land c2 0x3F) in
                    if r <=? 0x7FF then (RuneError, 1)
                    else if (0xD800 <=? r) && (r <=? 0xDFFF) then (RuneError, 1)
                    else (r, 3)
                  else
                    match s3 with
                    | EmptyString => (RuneError, 1)
                    | String b3 _ =>
                        let c3 := byte b3 in
                        if negb (continuation c3) then (RuneError, 1)
                        else if c0 <? 0xF8 then
                          let r := Z.lor (Z.lor (Z.lor
                                     (Z.shiftl (Z.land c0 0x07) 18)
                                     (Z.shiftl (Z.land c1 0x3F) 12))
                                     (Z.shiftl (Z.land c2 0x3F) 6))
                                     (Z.land c3 0x3F) in
                          if (r <=? 0xFFFF) || (0x10FFFF <? r) then (RuneError, 1)
                          else (r, 4)
                        else (RuneError, 1)
                    end
              end
        end
  end.

Definition drop_bytes (n : Z) (s : string) : string :=
  String.substring (Z.to_nat n) (String.length s - Z.to_nat n) s.

(** The runes a [for _, rune := range str] loop visits. *)
Fixpoint runes_fuel (fuel : nat) (s : string) : list Z :=
  match fuel with
  | O => []
  | S fuel' =>
      match s with
      | EmptyString => []
      | _ => let '(r, w) := DecodeRuneInString s in
             r :: runes_fuel fuel' (drop_bytes w s)
      end
  end.

Definition runes (s : string) : list Z := runes_fuel (String.length s) s.

(** [func (typ tokenType) String() string] *)
Definition tokenType_String (typ : tokenType) : string :=
  match typ with
  | tokenTypeError => "tokenTypeError"
  | tokenTypeEOF => "tokenTypeEOF"
  | tokenTypeCmdHelp => "tokenTypeCmdHelp"
  | tokenTypeCmdStatus => "tokenTypeCmdStatus"
  | tokenTypeCmdStop => "tokenTypeCmdStop"
  | tokenTypeCmdStart => "tokenTypeCmdStart"
  | tokenTypeSqlCreate => "tokenTypeSqlCreate"
  | tokenTypeSqlTable => "tokenTypeSqlTable"
  | tokenTypeSqlInsert => "tokenTypeSqlInsert"
  | tokenTypeSqlInto => "tokenTypeSqlInto"
  | tokenTypeSqlUpdate => "tokenTypeSqlUpdate"
  | tokenTypeSqlDelete => "tokenTypeSqlDelete"
  | tokenTypeSqlFrom => "tokenTypeSqlFrom"
  | tokenTypeSqlSelect => "tokenTypeSqlSelect"
  | tokenTypeSqlSubscribe => "tokenTypeSqlSubscribe"
  | tokenTypeSqlUnsubscribe => "tokenTypeSqlUnsubscribe"
  | tokenTypeSqlWhere => "tokenTypeSqlWhere"
  | tokenTypeSqlStar => "tokenTypeSqlStar"
  | tokenTypeSqlEqual => "tokenTypeSqlEqual"
  | tokenTypeSqlLeftParenthesis => "tokenTypeSqlLeftParenthesis"
  | tokenTypeSqlRightParenthesis => "tokenTypeSqlRightParenthesis"
  | tokenTypeSqlComma => "tokenTypeSqlComma"
  | tokenTypeSqlId => "tokenTypeSqlId"
  | _ => "not implemented"
  end.

(** [func (t token) String() string] *)
Definition token_String (t : token) : string :=
  if bool_decide (typ t = tokenTypeEOF) then "EOF" else val t.

(** The declared kinds that [String] has no case for. *)
Definition unnamed_kinds : list tokenType :=
  [tokenTypeSqlValue; tokenTypeSqlAnsiQuote; tokenTypeSqlString;
   tokenTypeWhiteSpace].

(** For examples on ASCII input: on a format without a [%] [fmt.Sprintf]
    returns the format, and a scan of ASCII input never consults the
    Unicode tables. *)
Definition Sprintf_plain (format : string) : string := format.

Definition no_table (r : Z) : bool := false.

Section Scanner.

(** The Unicode tables of the Go release and its [fmt] package are not
    part of the repository: [White_Space] is the table of that name beyond
    Latin-1, [Letter] and [Digit] the tables of those categories beyond
    ASCII and Latin-1, and [Sprintf] is [fmt.Sprintf] applied to a format
    and no further argument. *)
Variable Sprintf : string -> string.
Variables White_Space Letter Digit : Z -> bool.

Definition MaxLatin1 : Z := 0xFF.

(** [unicode.IsSpace] *)
Definition IsSpace (r : Z) : bool :=
  if (0 <=? r) && (r <=? MaxLatin1) then
    (r =? 9) || (r =? 10) || (r =? 11) || (r =? 12) || (r =? 13) ||
    (r =? 32) || (r =? 0x85) || (r =? 0xA0)
  else White_Space r.

(** [unicode.IsLetter]: on ASCII the letters A-Z and a-z. *)
Definition IsLetter (r : Z) : bool :=
  if (0 <=? r) && (r <? 0x80) then
    ((65 <=? r) && (r <=? 90)) || ((97 <=? r) && (r <=? 122))
  else Letter r.

(** [unicode.IsDigit] *)
Definition IsDigit (r : Z) : bool :=
  if r <=? MaxLatin1 then (48 <=? r) && (r <=? 57)
  else Digit r.

(** *** The scanner primitives *)

Definition Consume (t : token) : M lexer unit :=
  modify (fun l => mkLexer (input l) (start l) (pos l) (width l) (tokens l ++ [t])).

Definition set_start (v : Z) : M lexer unit :=
  modify (fun l => mkLexer (input l) v (pos l) (width l) (tokens l)).
Definition set_pos (v : Z) : M lexer unit :=
  modify (fun l => mkLexer (input l) (start l) v (width l) (tokens l)).
Definition set_width (v : Z) : M lexer unit :=
  modify (fun l => mkLexer (input l) (start l) (pos l) v (tokens l)).

Definition lift {A : Type} (r : result A) : M lexer A := fun l =>
  match r with
  | Ok a => Ok (a, l)
  | Panic why => Panic why
  | NoFuel => NoFuel
  end.

Definition out_of_fuel {A : Type} : M lexer A := fun _ => NoFuel.

(** [func (l *lexer) errorToken(format string, args ...interface{}) stateFn] *)
Definition errorToken (format : string) : M lexer (option stateFn) :=
  Consume (mkToken tokenTypeError (Sprintf format)) ;;;
  ret None.

(** [func (l *lexer) current() string] *)
Definition current : M lexer string :=
  l <- get ;;
  str <- lift (slice (input l) (start l) (pos l)) ;;
  set_start (pos l) ;;;
  ret str.

(** [func (l *lexer) emit(t tokenType)] *)
Definition emit (t : tokenType) : M lexer unit :=
  str <- current ;;
  Consume (mkToken t str).

(** [func (l *lexer) next() (rune int32)] *)
Definition next : M lexer Z :=
  l <- get ;;
  if len (input l) <=? pos l then
    set_width 0 ;;;
    ret 0
  else
    rest <- lift (slice (input l) (pos l) (len (input l))) ;;
    let '(rune, w) := DecodeRuneInString rest in
    set_width w ;;;
    set_pos (pos l + w) ;;;
    ret rune.

(** [func (l *lexer) ignore()] *)
Definition ignore : M lexer unit :=
  l <- get ;; set_start (pos l).

(** [func (l *lexer) backup()] *)
Definition backup : M lexer unit :=
  l <- get ;; set_pos (pos l - width l).

(** [func (l *lexer) peek() int32] *)
Definition peek : M lexer Z :=
  rune <- next ;;
  backup ;;;
  ret rune.

(** [func isWhiteSpace(rune int32) bool] *)
Definition isWhiteSpace (rune : Z) : bool := IsSpace rune || (rune =? 0).

(** The loops of the scanner read one rune per turn; the model gives
    each of them one turn per byte of the input and one more. *)
Definition turns (l : lexer) : nat := S (String.length (input l)).

(** The three loops of the file have one shape,
    [for rune := l.next(); cond(rune); rune = l.next() {}]. *)
Fixpoint read_while (cond : Z -> bool) (fuel : nat) : M lexer unit :=
  match fuel with
  | O => out_of_fuel
  | S fuel' =>
      rune <- next ;;
      if cond rune then read_while cond fuel' else ret tt
  end.

(** [func (l *lexer) scanTillWhiteSpace()] *)
Definition scanTillWhiteSpace : M lexer unit :=
  l <- get ;;
  read_while (fun rune => negb (isWhiteSpace rune)) (turns l).

(** The body of [match]'s [for _, rune := range str]. *)
Fixpoint match_loop (rs : list Z) (skip : Z) (done : bool) : M lexer bool :=
  match rs with
  | [] => ret done
  | rune :: rs' =>
      if 0 <? skip then match_loop rs' (skip - 1) done
      else
        c <- next ;;
        match_loop rs' skip (if negb (rune =? c) then false else done)
  end.

(** [func (l *lexer) match(str string, skip int) bool] *)
Definition match_ (str : string) (skip : Z) : M lexer bool :=
  done <- match_loop (runes str) skip true ;;
  c <- peek ;;
  if bool_decide (false = isWhiteSpace c) then
    scanTillWhiteSpace ;;;
    ret false
  else ret done.

(** [func (l *lexer) lexMatch(typ tokenType, command string, skip int, fn stateFn) stateFn] *)
Definition lexMatch (t : tokenType) (command : string) (skip : Z)
    (fn : option stateFn) : M lexer (option stateFn) :=
  ok <- match_ command skip ;;
  if ok then
    emit t ;;;
    ret fn
  else
    str <- current ;;
    errorToken ("Unexpected token:" +:+ str) ;;;
    ret None.

(** [func lexCommandST(l *lexer) stateFn].  The statements after the
    [switch] are unreachable: both arms return. *)
Definition lexCommandST : M lexer (option stateFn) :=
  c <- next ;;
  if c =? 97 (* 'a' *) then
    c' <- next ;;
    if c' =? 114 (* 'r' *) then lexMatch tokenTypeCmdStart "start" 4 None
    else lexMatch tokenTypeCmdStatus "status" 4 None
  else lexMatch tokenTypeCmdStop "stop" 3 None.

(** [func lexCommandS(l *lexer) stateFn] *)
Definition lexCommandS : M lexer (option stateFn) :=
  c <- next ;;
  if c =? 101 (* 'e' *) then lexMatch tokenTypeSqlSelect "select" 2 None
  else if c =? 117 (* 'u' *) then lexMatch tokenTypeSqlSubscribe "subscribe" 2 None
  else if c =? 116 (* 't' *) then lexCommandST
  else
    str <- current ;;
    errorToken ("Invalid command:" +:+ str) ;;;
    ret None.

(** [func (l *lexer) lexSkipWhiteSpaces()] *)
Definition lexSkipWhiteSpaces : M lexer unit :=
  l <- get ;;
  read_while IsSpace (turns l) ;;;
  backup ;;;
  ignore.

(** [func (l *lexer) lexSqlIdentifier(typ tokenType, fn stateFn) stateFn] *)
Definition lexSqlIdentifier (t : tokenType) (fn : option stateFn)
    : M lexer (option stateFn) :=
  lexSkipWhiteSpaces ;;;
  c <- next ;;
  if negb (IsLetter c) then
    str <- current ;;
    errorToken ("identifier must begin with a letter " +:+ str) ;;;
    ret None
  else
    l <- get ;;
    read_while (fun rune => IsLetter rune || IsDigit rune) (turns l) ;;;
    backup ;;;
    emit t ;;;
    ret fn.

(** [func (l *lexer) lexSqlLeftParenthesis(fn stateFn) stateFn] *)
Definition lexSqlLeftParenthesis (fn : option stateFn) : M lexer (option stateFn) :=
  lexSkipWhiteSpaces ;;;
  c <- next ;;
  if negb (c =? 40) (* '(' *) then
    errorToken "expected ( " ;;;
    ret None
  else
    emit tokenTypeSqlLeftParenthesis ;;;
    ret fn.

(** [func lexSqlInsertInto(l *lexer) stateFn] *)
Definition lexSqlInsertInto : M lexer (option stateFn) :=
  lexSkipWhiteSpaces ;;;
  lexMatch tokenTypeSqlInto "into" 0 (Some LexSqlInsertIntoTable).

(** [func lexSqlInsertIntoTable(l *lexer) stateFn] *)
Definition lexSqlInsertIntoTable : M lexer (option stateFn) :=
  lexSqlIdentifier tokenTypeSqlTable (Some LexSqlInsertIntoTableLeftParenthesis).

(** [func lexSqlInsertIntoTableLeftParenthesis(l *lexer) stateFn] *)
Definition lexSqlInsertIntoTableLeftParenthesis : M lexer (option stateFn) :=
  lexSqlLeftParenthesis None.

(** [func lexCommand(l *lexer) stateFn] *)
Definition lexCommand : M lexer (option stateFn) :=
  lexSkipWhiteSpaces ;;;
  c <- next ;;
  if c =? 117 (* 'u' *) then
    c' <- next ;;
    if c' =? 112 (* 'p' *) then lexMatch tokenTypeSqlUpdate "update" 2 None
    else lexMatch tokenTypeSqlUnsubscribe "unsubscribe" 2 None
  else if c =? 115 (* 's' *) then lexCommandS
  else if c =? 105 (* 'i' *) then
    lexMatch tokenTypeSqlInsert "insert" 1 (Some LexSqlInsertInto)
  else if c =? 100 (* 'd' *) then lexMatch tokenTypeSqlDelete "delete" 1 None
  else if c =? 104 (* 'h' *) then lexMatch tokenTypeCmdHelp "help" 1 None
  else
    str <- current ;;
    errorToken ("Invalid command:" +:+ str) ;;;
    ret None.

(** Calling a state function. *)
Definition call (state : stateFn) : M lexer (option stateFn) :=
  match state with
  | LexCommand => lexCommand
  | LexSqlInsertInto => lexSqlInsertInto
  | LexSqlInsertIntoTable => lexSqlInsertIntoTable
  | LexSqlInsertIntoTableLeftParenthesis => lexSqlInsertIntoTableLeftParenthesis
  end.

(** [for state := lexCommand; state != nil; { state = state(l) }] *)
Fixpoint run_loop (fuel : nat) (state : option stateFn) : M lexer unit :=
  match state with
  | None => ret tt
  | Some f =>
      match fuel with
      | O => out_of_fuel
      | S fuel' => state' <- call f ;; run_loop fuel' state'
      end
  end.

(** [func (l *lexer) run()]: no state function is entered twice, so four
    turns of the loop are all it can take. *)
Definition run : M lexer unit :=
  run_loop 4 (Some LexCommand) ;;;
  emit tokenTypeEOF.

(** [func lex(input string, tokens tokenConsumer)]: the tokens handed to
    the consumer. *)
Definition lex (input : string) : result (list token) :=
  match run (mkLexer input 0 0 0 []) with
  | Ok (_, l) => Ok (tokens l)
  | Panic why => Panic why
  | NoFuel => NoFuel
  end.

(** *** Predicates of the specification *)

(** [c] returns from [l], and its result and final state satisfy [Q]. *)
Definition returns {A : Type} (c : M lexer A) (l : lexer)
    (Q : A -> lexer -> Prop) : Prop :=
  exists a l', c l = Ok (a, l') /\ Q a l'.

(** The cursor invariant of the data model. *)
Definition bounds (l : lexer) : Prop :=
  0 <= start l <= pos l /\ pos l <= len (input l).

(** [l'] is [l] after some reads: only the cursor moved, forward. *)
Definition reads (l l' : lexer) : Prop :=
  input l' = input l /\ tokens l' = tokens l /\ start l' = start l /\
  pos l <= pos l' <= len (input l).

(** The state after one token was handed over. *)
Definition emitted (l l' : lexer) (t : token) : Prop :=
  input l' = input l /\ tokens l' = tokens l ++ [t] /\ bounds l'.

(** [lexMatch typ command skip fn] hands over either a [typ] token, and
    then continues with [fn], or an error token, and then stops. *)
Definition handed (t : tokenType) (fn : option stateFn) (l : lexer)
    (r : option stateFn) (l' : lexer) : Prop :=
  exists tok, emitted l l' tok /\
    ((typ tok = t /\ r = fn) \/ (typ tok = tokenTypeError /\ r = None)).

Definition rank (f : stateFn) : nat :=
  match f with
  | LexCommand => 4
  | LexSqlInsertInto => 3
  | LexSqlInsertIntoTable => 2
  | LexSqlInsertIntoTableLeftParenthesis => 1
  end.

(** A call of the state function [f]: one token that is not the
    end-of-input token, and a next state only after a token that is not an
    error, further down the chain of states. *)
Definition stepped (f : stateFn) (l : lexer) (r : option stateFn)
    (l' : lexer) : Prop :=
  exists tok, emitted l l' tok /\ typ tok <> tokenTypeEOF /\
    match r with
    | None => True
    | Some f' => typ tok <> tokenTypeError /\ (rank f' < rank f)%nat
    end.

(** What [run] hands over before the end-of-input token: no end-of-input
    token, and nothing after an error token. *)
Definition body_ok (body : list token) : Prop :=
  Forall (fun t => typ t <> tokenTypeEOF) body /\
  forall pre t post,
    body = pre ++ t :: post -> typ t = tokenTypeError -> post = [].

(** The terminal signals among the tokens handed over: error tokens and
    end-of-input tokens. *)
Definition terminal (t : token) : bool :=
  bool_decide (typ t = tokenTypeError \/ typ t = tokenTypeEOF).

Definition terminal_signals (toks : list token) : nat :=
  length (filter (fun t => terminal t = true) toks).

(** The next rune is a word boundary: white space or the end of the
    input. *)
Definition boundary (rest : string) : bool :=
  match rest with
  | EmptyString => true
  | _ => isWhiteSpace (fst (DecodeRuneInString rest))
  end.

(** The input starts with ASCII bytes only. *)
Definition ascii_only (s : string) : bool :=
  forallb (fun c => byte c <? 0x80) (String.list_ascii_of_string s).

(** The number of runes the loop of [match] reads. *)
Fixpoint reads_of (rs : list Z) (skip : Z) : Z :=
  match rs with
  | [] => 0
  | _ :: rs' => if 0 <? skip then reads_of rs' (skip - 1) else 1 + reads_of rs' skip
  end.

(** The keywords the command dispatch matches. *)
Definition keywords : list string :=
  ["update"; "unsubscribe"; "select"; "subscribe"; "start"; "status";
   "stop"; "insert"; "delete"; "help"].

(** [c], whenever it returns, leaves the input alone and only adds tokens
    that satisfy [P] to what the consumer has received. *)
Definition emits (P : string -> token -> Prop) {A : Type} (c : M lexer A) : Prop :=
  forall l a l',
    c l = Ok (a, l') ->
    input l' = input l /\
    exists new, tokens l' = tokens l ++ new /\ Forall (P (input l)) new.

(** The kinds of token the scanner has an [emit] for. *)
Definition scanned_kinds : list tokenType :=
  [tokenTypeEOF; tokenTypeCmdHelp; tokenTypeCmdStatus; tokenTypeCmdStop;
   tokenTypeCmdStart; tokenTypeSqlTable; tokenTypeSqlInsert; tokenTypeSqlInto;
   tokenTypeSqlUpdate; tokenTypeSqlDelete; tokenTypeSqlSelect;
   tokenTypeSqlSubscribe; tokenTypeSqlUnsubscribe; tokenTypeSqlLeftParenthesis].

(** A token as the scanner produces it: an error token, or a token of a
    scanned kind whose value is a slice of the input. *)
Definition scanned (inp : string) (tok : token) : Prop :=
  typ tok = tokenTypeError \/
  (typ tok ∈ scanned_kinds /\
   exists lo n, val tok = String.substring lo n inp).

(** The bytes of a string. *)
Definition bytes_of (s : string) : list Z :=
  map byte (String.list_ascii_of_string s).

(** What the loop of [match] answers when the runes it reads are [cs]. *)
Fixpoint verdict (rs : list Z) (skip : Z) (done : bool) (cs : list Z) : bool :=
  match rs with
  | [] => done
  | rune :: rs' =>
      if 0 <? skip then verdict rs' (skip - 1) done cs
      else
        match cs with
        | [] => done
        | c :: cs' => verdict rs' skip (if negb (rune =? c) then false else done) cs'
        end
  end.

(** The keywords after which [lexMatch] is given no next state, with the
    kinds of their tokens. *)
Definition commands : list (string * tokenType) :=
  [("update", tokenTypeSqlUpdate); ("unsubscribe", tokenTypeSqlUnsubscribe);
   ("select", tokenTypeSqlSelect); ("subscribe", tokenTypeSqlSubscribe);
   ("start", tokenTypeCmdStart); ("status", tokenTypeCmdStatus);
   ("stop", tokenTypeCmdStop); ("delete", tokenTypeSqlDelete);
   ("help", tokenTypeCmdHelp)].

(** The runes [lexCommand] has a case for. *)
Definition dispatch : list Z := [117; 115; 105; 100; 104].

(** What [next] reads when [rest] is what is left of the input: the rune
    and its width, the rune 0 of width 0 at the end of the input. *)
Definition lookahead (rest : string) : Z * Z :=
  match rest with
  | EmptyString => (0, 0)
  | _ => DecodeRuneInString rest
  end.

(** The ASCII white space characters: tab, line feed, vertical tab, form
    feed, carriage return and space. *)
Definition ascii_space (c : Z) : bool :=
  (c =? 9) || (c =? 10) || (c =? 11) || (c =? 12) || (c =? 13) || (c =? 32).

Definition blank (s : string) : bool := forallb ascii_space (bytes_of s).

Definition ascii_letter (c : Z) : bool :=
  ((65 <=? c) && (c <=? 90)) || ((97 <=? c) && (c <=? 122)).

Definition ascii_digit (c : Z) : bool := (48 <=? c) && (c <=? 57).

(** An ASCII identifier: a letter, then letters and digits. *)
Definition identifier (s : string) : bool :=
  match bytes_of s with
  | [] => false
  | c :: cs => ascii_letter c && forallb (fun c => ascii_letter c || ascii_digit c) cs
  end.

(** *** Strings *)

Lemma length_substring (s : string) : forall n m,
  String.length (String.substring n m s) = Nat.min m (String.length s - n).
Proof.
  induction s as [|c s IH]; intros n m; simpl.
  - destruct n, m; reflexivity.
  - destruct n as [|n]; [destruct m as [|m]|]; simpl; [reflexivity| |apply IH].
    rewrite IH. now rewrite Nat.sub_0_r.
Qed.

Lemma substring_none (s : string) : forall n, String.substring n 0 s = "".
Proof. induction s as [|c s IH]; intros [|n]; simpl; auto. Qed.

Lemma substring_nonempty (s : string) : forall n m,
  (n < String.length s)%nat -> (0 < m)%nat -> String.substring n m s <> "".
Proof.
  induction s as [|c s IH]; intros n m Hn Hm; simpl in *; [lia|].
  destruct n as [|n]; [destruct m; [lia|discriminate]|].
  apply IH; lia.
Qed.

Lemma decode_empty : DecodeRuneInString "" = (RuneError, 0).
Proof. reflexivity. Qed.

Lemma decode_width (s : string) :
  s <> "" ->
  1 <= snd (DecodeRuneInString s) <= len s.
Proof.
  intros Hs. unfold DecodeRuneInString, len.
  destruct s as [|b0 [|b1 [|b2 [|b3 s]]]]; [done|..];
    repeat (case_match; simpl String.length; simpl snd; try lia).
Qed.

Lemma slice_ok (s : string) (lo hi : Z) :
  0 <= lo <= hi -> hi <= len s ->
  slice s lo hi = Ok (String.substring (Z.to_nat lo) (Z.to_nat (hi - lo)) s).
Proof.
  intros [H1 H2] H3. unfold slice.
  now rewrite (proj2 (Z.leb_le _ _) H1), (proj2 (Z.leb_le _ _) H2),
    (proj2 (Z.leb_le _ _) H3).
Qed.

(** *** Specifications of the primitives *)

Lemma returns_bind {A B : Type} (c : M lexer A) (k : A -> M lexer B) l Q :
  returns c l (fun a l' => returns (k a) l' Q) -> returns (bind c k) l Q.
Proof.
  intros (a & l' & Hc & b & l'' & Hk & HQ). exists b, l''.
  split; [|done]. unfold bind. now rewrite Hc.
Qed.

Lemma returns_ret {A : Type} (a : A) l (Q : A -> lexer -> Prop) :
  Q a l -> returns (ret a) l Q.
Proof. intros HQ. exists a, l. done. Qed.

Lemma returns_get l (Q : lexer -> lexer -> Prop) :
  Q l l -> returns get l Q.
Proof. intros HQ. exists l, l. done. Qed.

Lemma returns_modify f l (Q : unit -> lexer -> Prop) :
  Q tt (f l) -> returns (modify f) l Q.
Proof. intros HQ. exists tt, (f l). done. Qed.

Lemma returns_weaken {A : Type} (c : M lexer A) l (P Q : A -> lexer -> Prop) :
  returns c l P -> (forall a l', P a l' -> Q a l') -> returns c l Q.
Proof. intros (a & l' & Hc & HP) HPQ. exists a, l'. auto. Qed.

Ltac mstep :=
  cbv beta;
  lazymatch goal with
  | |- returns (bind _ _) _ _ => apply returns_bind
  | |- returns (ret _) _ _ => apply returns_ret
  | |- returns get _ _ => apply returns_get
  | |- returns (modify _) _ _ => apply returns_modify
  | |- returns (set_width _) _ _ => apply returns_modify
  | |- returns (set_pos _) _ _ => apply returns_modify
  | |- returns (set_start _) _ _ => apply returns_modify
  | |- returns (Consume _) _ _ => apply returns_modify
  end.
Ltac msteps := repeat mstep.

Lemma reads_refl l : bounds l -> reads l l.
Proof. unfold bounds, reads. intros ?. repeat split; try done; lia. Qed.

Lemma reads_trans l1 l2 l3 : reads l1 l2 -> reads l2 l3 -> reads l1 l3.
Proof.
  unfold reads. intros (Hi & Ht & Hs & Hp) (Hi' & Ht' & Hs' & Hp').
  rewrite Hi in Hp'. repeat split; try congruence; lia.
Qed.

Lemma reads_bounds l l' : bounds l -> reads l l' -> bounds l'.
Proof. unfold bounds, reads. intros ? (-> & _ & -> & ?). lia. Qed.

Lemma next_spec l :
  bounds l ->
  returns next l (fun r l' =>
    reads l l' /\ width l' = pos l' - pos l /\ (pos l' = pos l -> r = 0)).
Proof.
  intros Hb. destruct l as [inp st p w toks]. unfold bounds in Hb. simpl in Hb.
  unfold next. msteps. simpl.
  destruct (Z.leb_spec (len inp) p) as [Hle|Hlt].
  - msteps. unfold reads. simpl. repeat split; lia.
  - mstep. unfold lift. rewrite slice_ok by lia.
    eexists _, _. split; [reflexivity|].
    set (rest := String.substring _ _ _).
    assert (rest <> "") as Hne.
    { apply substring_nonempty; unfold len in *; lia. }
    assert (len rest = len inp - p) as Hlen.
    { unfold rest, len in *. rewrite length_substring. lia. }
    pose proof (decode_width rest Hne) as Hw.
    destruct (DecodeRuneInString rest) as [r w']. simpl in Hw.
    msteps. unfold reads. simpl. repeat split; lia.
Qed.

Lemma backup_spec l l' :
  reads l l' -> 0 <= width l' <= pos l' - pos l ->
  returns backup l' (fun _ l'' => reads l l'').
Proof.
  intros (Hi & Ht & Hs & Hp) Hw. unfold backup. msteps.
  unfold reads. simpl. repeat split; try done; lia.
Qed.

Lemma peek_spec l :
  bounds l ->
  returns peek l (fun _ l' => reads l l' /\ pos l' = pos l).
Proof.
  intros Hb. unfold peek. mstep.
  eapply returns_weaken; [apply next_spec, Hb|]. intros r l' (Hr & Hw & _).
  unfold backup. msteps. destruct Hr as (Hi & Ht & Hs & Hp).
  unfold reads. simpl. repeat split; try done; lia.
Qed.

Lemma read_while_spec (cond : Z -> bool) (fuel : nat) : forall l,
  cond 0 = false -> bounds l -> len (input l) - pos l < Z.of_nat fuel ->
  returns (read_while cond fuel) l (fun _ l' =>
    reads l l' /\ 0 <= width l' <= pos l' - pos l).
Proof.
  induction fuel as [|fuel IH]; intros l H0 Hb Hfuel.
  - unfold bounds in Hb. lia.
  - simpl. mstep.
    eapply returns_weaken; [apply next_spec, Hb|]. intros r l1 (Hr & Hw & Hz).
    pose proof Hr as (Hi & Ht & Hs & Hp).
    destruct (cond r) eqn:Hc.
    + assert (pos l1 <> pos l) as Hadv by (intros E; rewrite (Hz E) in Hc; congruence).
      eapply returns_weaken.
      * apply IH; [done|eapply reads_bounds; eauto|]. rewrite Hi. lia.
      * intros ? l2 (Hr2 & Hw2). split; [eapply reads_trans; eauto|]. lia.
    + mstep. split; [done|]. lia.
Qed.

Lemma turns_enough l : bounds l -> len (input l) - pos l < Z.of_nat (turns l).
Proof. unfold bounds, turns, len. lia. Qed.

Lemma IsSpace_0 : IsSpace 0 = false.
Proof. reflexivity. Qed.

Lemma isWhiteSpace_0 : isWhiteSpace 0 = true.
Proof. reflexivity. Qed.

Lemma IsLetter_0 : IsLetter 0 = false.
Proof. reflexivity. Qed.

Lemma IsDigit_0 : IsDigit 0 = false.
Proof. reflexivity. Qed.

Lemma scanTillWhiteSpace_spec l :
  bounds l -> returns scanTillWhiteSpace l (fun _ l' => reads l l').
Proof.
  intros Hb. unfold scanTillWhiteSpace. msteps.
  eapply returns_weaken.
  - apply read_while_spec; [reflexivity|done|by apply turns_enough].
  - intros ? l' [Hr _]. done.
Qed.

Lemma lexSkipWhiteSpaces_spec l :
  bounds l ->
  returns lexSkipWhiteSpaces l (fun _ l' =>
    input l' = input l /\ tokens l' = tokens l /\ bounds l' /\ start l' = pos l').
Proof.
  intros Hb. unfold lexSkipWhiteSpaces. msteps. eapply returns_weaken.
  - apply read_while_spec; [reflexivity|done|by apply turns_enough].
  - intros ? l1 [Hr Hw]. mstep. eapply returns_weaken.
    + eapply backup_spec; eauto.
    + intros ? l2 (Hi & Ht & Hs & Hp). unfold ignore. msteps. simpl.
      unfold bounds in *. simpl. rewrite Hi. repeat split; try done; lia.
Qed.

Lemma match_loop_spec (rs : list Z) : forall skip done l,
  bounds l -> returns (match_loop rs skip done) l (fun _ l' => reads l l').
Proof.
  induction rs as [|r rs IH]; intros skip done l Hb; simpl.
  - mstep. apply reads_refl, Hb.
  - destruct (0 <? skip); [apply IH, Hb|].
    mstep. eapply returns_weaken; [apply next_spec, Hb|].
    intros c l1 (Hr & _). eapply returns_weaken.
    + apply IH. eapply reads_bounds; eauto.
    + intros ? l2 Hr2. eapply reads_trans; eauto.
Qed.

Lemma match_spec str skip l :
  bounds l -> returns (match_ str skip) l (fun _ l' => reads l l').
Proof.
  intros Hb. unfold match_. mstep.
  eapply returns_weaken; [apply match_loop_spec, Hb|]. intros done l1 Hr1.
  pose proof (reads_bounds _ _ Hb Hr1) as Hb1.
  mstep. eapply returns_weaken; [apply peek_spec, Hb1|].
  intros c l2 [Hr2 _]. pose proof (reads_bounds _ _ Hb1 Hr2) as Hb2.
  cbv beta. case_bool_decide.
  - mstep. eapply returns_weaken; [apply scanTillWhiteSpace_spec, Hb2|].
    intros ? l3 Hr3. mstep.
    exact (reads_trans _ _ _ Hr1 (reads_trans _ _ _ Hr2 Hr3)).
  - mstep. exact (reads_trans _ _ _ Hr1 Hr2).
Qed.

Lemma current_spec l :
  bounds l ->
  returns current l (fun _ l' =>
    input l' = input l /\ tokens l' = tokens l /\ bounds l' /\ start l' = pos l').
Proof.
  intros Hb. unfold current. msteps. unfold lift. unfold bounds in Hb.
  rewrite slice_ok by lia.
  eexists _, _. split; [reflexivity|]. msteps. unfold bounds. simpl.
  repeat split; lia.
Qed.

Lemma emit_spec t l :
  bounds l ->
  returns (emit t) l (fun _ l' => exists v, emitted l l' (mkToken t v)).
Proof.
  intros Hb. unfold emit. mstep.
  eapply returns_weaken; [apply current_spec, Hb|].
  intros v l1 (Hi & Ht & Hb1 & Hs). mstep.
  exists v. unfold emitted, bounds in *. simpl. rewrite Ht. repeat split; try done; lia.
Qed.

Lemma errorToken_spec format l :
  bounds l ->
  returns (errorToken format) l (fun r l' =>
    r = None /\ emitted l l' (mkToken tokenTypeError (Sprintf format))).
Proof.
  intros Hb. unfold errorToken. msteps.
  unfold emitted, bounds in *. simpl. repeat split; try done; lia.
Qed.

(** *** The state functions hand over one token each *)

Lemma reads_emitted l l1 l2 t : reads l l1 -> emitted l1 l2 t -> emitted l l2 t.
Proof.
  intros (Hi & Ht & _) (Hi' & Ht' & Hb). unfold emitted.
  rewrite Hi', Hi, Ht', Ht. done.
Qed.

Lemma kept_emitted l l1 l2 t :
  input l1 = input l -> tokens l1 = tokens l -> emitted l1 l2 t -> emitted l l2 t.
Proof.
  intros Hi Ht (Hi' & Ht' & Hb). unfold emitted.
  rewrite Hi', Hi, Ht', Ht. done.
Qed.

Lemma failed_spec (message : string -> string) l :
  bounds l ->
  returns (str <- current ;; errorToken (message str) ;;; ret (None : option stateFn)) l
    (fun r l' => exists tok, emitted l l' tok /\ typ tok = tokenTypeError /\ r = None).
Proof.
  intros Hb. mstep. eapply returns_weaken; [apply current_spec, Hb|].
  intros str l1 (Hi & Ht & Hb1 & Hs). mstep.
  eapply returns_weaken; [apply errorToken_spec; done|].
  intros r l2 (-> & He). mstep. eexists.
  split; [eapply kept_emitted; eauto|]. done.
Qed.

Lemma lexMatch_spec t command skip fn l :
  bounds l -> returns (lexMatch t command skip fn) l (handed t fn l).
Proof.
  intros Hb. unfold lexMatch. mstep.
  eapply returns_weaken; [apply match_spec, Hb|]. intros ok l1 Hr1.
  pose proof (reads_bounds _ _ Hb Hr1) as Hb1. cbv beta. destruct ok.
  - mstep. eapply returns_weaken; [apply emit_spec, Hb1|].
    intros ? l2 (v & He). mstep. eexists. split; [eapply reads_emitted; eauto|].
    left. done.
  - eapply returns_weaken; [apply failed_spec, Hb1|].
    intros r l2 (tok & He & Htyp & ->). exists tok.
    split; [eapply reads_emitted; eauto|]. right. done.
Qed.

Lemma handed_stepped f t fn l0 l r l' :
  handed t fn l r l' ->
  input l = input l0 -> tokens l = tokens l0 ->
  t <> tokenTypeEOF -> t <> tokenTypeError ->
  match fn with None => True | Some f' => (rank f' < rank f)%nat end ->
  stepped f l0 r l'.
Proof.
  intros (tok & He & [[Htyp ->]|[Htyp ->]]) Hi Ht H1 H2 Hfn;
    exists tok; (split; [eapply kept_emitted; eauto|]).
  - rewrite Htyp. split; [done|]. destruct fn; done.
  - rewrite Htyp. done.
Qed.

Lemma failed_stepped f l0 l r l' :
  (exists tok, emitted l l' tok /\ typ tok = tokenTypeError /\ r = None) ->
  input l = input l0 -> tokens l = tokens l0 ->
  stepped f l0 r l'.
Proof.
  intros (tok & He & Htyp & ->) Hi Ht. exists tok.
  split; [eapply kept_emitted; eauto|]. rewrite Htyp. done.
Qed.

Ltac by_lexMatch Hb Hi Ht :=
  eapply returns_weaken; [apply lexMatch_spec, Hb|];
  let H := fresh "H" in
  intros ? ? H; cbv beta in H;
  eapply handed_stepped; [exact H|exact Hi|exact Ht|done|done|simpl; try lia; done].

Ltac by_failed Hb Hi Ht :=
  cbv beta iota; eapply returns_weaken;
  [ lazymatch goal with
    | |- returns (bind current (fun str => bind (errorToken (@?m str)) _)) _ _ =>
        apply (failed_spec m), Hb
    end |];
  let H := fresh "H" in
  intros ? ? H; cbv beta in H; eapply failed_stepped; [exact H|exact Hi|exact Ht].

Ltac read_rune Hb c l1 Hb1 Hi1 Ht1 :=
  mstep; eapply returns_weaken; [apply next_spec, Hb|];
  let Hr := fresh "Hr" in
  intros c l1 (Hr & _);
  pose proof (reads_bounds _ _ Hb Hr) as Hb1;
  pose proof (proj1 Hr) as Hi1;
  pose proof (proj1 (proj2 Hr)) as Ht1;
  cbv beta.

Lemma lexCommandST_spec l :
  bounds l -> returns lexCommandST l (stepped LexCommand l).
Proof.
  intros Hb. unfold lexCommandST.
  read_rune Hb c l1 Hb1 Hi1 Ht1.
  destruct (c =? 97); [|by_lexMatch Hb1 Hi1 Ht1].
  read_rune Hb1 c' l2 Hb2 Hi2 Ht2.
  rewrite Hi1 in Hi2. rewrite Ht1 in Ht2.
  destruct (c' =? 114); by_lexMatch Hb2 Hi2 Ht2.
Qed.

Lemma lexCommandS_spec l :
  bounds l -> returns lexCommandS l (stepped LexCommand l).
Proof.
  intros Hb. unfold lexCommandS.
  read_rune Hb c l1 Hb1 Hi1 Ht1.
  destruct (c =? 101); [by_lexMatch Hb1 Hi1 Ht1|].
  destruct (c =? 117); [by_lexMatch Hb1 Hi1 Ht1|].
  destruct (c =? 116); [|by_failed Hb1 Hi1 Ht1].
  eapply returns_weaken; [apply lexCommandST_spec, Hb1|].
  intros r l2 (tok & He & Hrest). exists tok. split; [|done].
  eapply kept_emitted; eauto.
Qed.

Ltac skip_spaces Hb l1 Hb1 Hi1 Ht1 Hs1 :=
  mstep; eapply returns_weaken; [apply lexSkipWhiteSpaces_spec, Hb|];
  intros ? l1 (Hi1 & Ht1 & Hb1 & Hs1); cbv beta.

Lemma lexCommand_spec l :
  bounds l -> returns lexCommand l (stepped LexCommand l).
Proof.
  intros Hb. unfold lexCommand.
  skip_spaces Hb l0 Hb0 Hi0 Ht0 Hs0.
  read_rune Hb0 c l1 Hb1 Hi1 Ht1. rewrite Hi0 in Hi1. rewrite Ht0 in Ht1.
  destruct (c =? 117).
  { read_rune Hb1 c' l2 Hb2 Hi2 Ht2. rewrite Hi1 in Hi2. rewrite Ht1 in Ht2.
    destruct (c' =? 112); by_lexMatch Hb2 Hi2 Ht2. }
  destruct (c =? 115).
  { eapply returns_weaken; [apply lexCommandS_spec, Hb1|].
    intros r l2 (tok & He & Hrest). exists tok. split; [|done].
    eapply kept_emitted; eauto. }
  destruct (c =? 105); [by_lexMatch Hb1 Hi1 Ht1|].
  destruct (c =? 100); [by_lexMatch Hb1 Hi1 Ht1|].
  destruct (c =? 104); [by_lexMatch Hb1 Hi1 Ht1|].
  by_failed Hb1 Hi1 Ht1.
Qed.

Lemma lexSqlInsertInto_spec l :
  bounds l -> returns lexSqlInsertInto l (stepped LexSqlInsertInto l).
Proof.
  intros Hb. unfold lexSqlInsertInto.
  skip_spaces Hb l0 Hb0 Hi0 Ht0 Hs0. by_lexMatch Hb0 Hi0 Ht0.
Qed.

Lemma lexSqlIdentifier_spec f t fn l :
  t <> tokenTypeEOF -> t <> tokenTypeError ->
  match fn with None => True | Some f' => (rank f' < rank f)%nat end ->
  bounds l -> returns (lexSqlIdentifier t fn) l (stepped f l).
Proof.
  intros H1 H2 Hfn Hb. unfold lexSqlIdentifier.
  skip_spaces Hb l0 Hb0 Hi0 Ht0 Hs0.
  read_rune Hb0 c l1 Hb1 Hi1 Ht1. rewrite Hi0 in Hi1. rewrite Ht0 in Ht1.
  destruct (negb (IsLetter c)); [by_failed Hb1 Hi1 Ht1|].
  msteps. eapply returns_weaken.
  { apply read_while_spec; [reflexivity|done|by apply turns_enough]. }
  intros ? l2 [Hr2 Hw2]. mstep. eapply returns_weaken; [eapply backup_spec; eauto|].
  intros ? l3 Hr3. pose proof (reads_bounds _ _ Hb1 Hr3) as Hb3.
  mstep. eapply returns_weaken; [apply emit_spec, Hb3|].
  intros ? l4 (v & He). mstep. exists (mkToken t v).
  split; [exact (kept_emitted _ _ _ _ Hi1 Ht1 (reads_emitted _ _ _ _ Hr3 He))|].
  simpl. split; [done|]. destruct fn; done.
Qed.

Lemma lexSqlLeftParenthesis_spec f fn l :
  match fn with None => True | Some f' => (rank f' < rank f)%nat end ->
  bounds l -> returns (lexSqlLeftParenthesis fn) l (stepped f l).
Proof.
  intros Hfn Hb. unfold lexSqlLeftParenthesis.
  skip_spaces Hb l0 Hb0 Hi0 Ht0 Hs0.
  mstep. eapply returns_weaken; [apply next_spec, Hb0|].
  intros c l1 (Hr1 & Hw1 & _). pose proof (reads_bounds _ _ Hb0 Hr1) as Hb1.
  pose proof (proj1 Hr1) as Hi1. pose proof (proj1 (proj2 Hr1)) as Ht1.
  rewrite Hi0 in Hi1. rewrite Ht0 in Ht1.
  cbv beta. destruct (negb (c =? 40)).
  - mstep. eapply returns_weaken; [apply errorToken_spec, Hb1|].
    intros r l2 (-> & He). mstep. eexists. split; [eapply kept_emitted; eauto|].
    done.
  - mstep. eapply returns_weaken; [apply emit_spec, Hb1|].
    intros ? l2 (v & He). mstep. eexists.
    split; [eapply kept_emitted; eauto|]. simpl. split; [done|].
    destruct fn; done.
Qed.

Lemma call_spec f l : bounds l -> returns (call f) l (stepped f l).
Proof.
  intros Hb. destruct f; simpl.
  - by apply lexCommand_spec.
  - by apply lexSqlInsertInto_spec.
  - apply lexSqlIdentifier_spec; simpl; try done; lia.
  - by apply lexSqlLeftParenthesis_spec.
Qed.

(** *** The run loop *)

Lemma run_loop_spec (fuel : nat) : forall state l,
  bounds l ->
  match state with Some f => (rank f <= fuel)%nat | None => True end ->
  returns (run_loop fuel state) l (fun _ l' =>
    bounds l' /\ exists body,
      tokens l' = tokens l ++ body /\ body_ok body /\
      (state = None -> body = [])).
Proof.
  induction fuel as [|fuel IH]; intros state l Hb Hrank.
  - destruct state as [f|]; [destruct f; simpl in Hrank; lia|].
    simpl. mstep. split; [done|]. exists []. rewrite app_nil_r.
    split; [done|]. split; [|done]. split; [constructor|].
    intros pre t post H. by destruct pre.
  - destruct state as [f|]; simpl.
    + mstep. eapply returns_weaken; [apply call_spec, Hb|].
      intros r l1 (tok & (Hi & Ht & Hb1) & Heof & Hr).
      eapply returns_weaken.
      * apply IH; [done|]. destruct r as [f'|]; [|done]. lia.
      * intros ? l2 (Hb2 & body & Ht2 & [Hall Hlast] & Hnone). cbv beta.
        split; [done|]. exists (tok :: body).
        split; [rewrite Ht2, Ht, <- app_assoc; done|]. split; [|done]. split.
        -- by constructor.
        -- intros pre t post Heq Herr. destruct pre as [|x pre]; simpl in Heq.
           ++ injection Heq as <- <-. destruct r as [f'|]; [tauto|].
              by apply Hnone.
           ++ injection Heq as <- Heq. eapply Hlast; eauto.
    + mstep. split; [done|]. exists []. rewrite app_nil_r.
      split; [done|]. split; [|done]. split; [constructor|].
      intros pre t post H. by destruct pre.
Qed.

(** C7, amended.  Every scan returns and ends by handing over one
    end-of-input token: [lex input] is a body followed by that token, the
    body holds no end-of-input token and at most one error token, which is
    then the last token of the body.  (A failed scan therefore signals
    twice: the error token and the end-of-input token.) *)
Theorem lex_terminal_tokens (inp : string) :
  exists body v,
    lex inp = Ok (body ++ [mkToken tokenTypeEOF v]) /\
    Forall (fun t => typ t <> tokenTypeEOF) body /\
    (forall pre t post,
       body = pre ++ t :: post -> typ t = tokenTypeError -> post = []).
Proof.
  assert (bounds (mkLexer inp 0 0 0 [])) as Hb.
  { unfold bounds, len. simpl. lia. }
  assert (returns run (mkLexer inp 0 0 0 []) (fun _ l' =>
    exists body v, tokens l' = body ++ [mkToken tokenTypeEOF v] /\ body_ok body))
    as (u & l' & Hrun & body & v & Htoks & Hok).
  { unfold run. mstep. eapply returns_weaken.
    - apply (run_loop_spec 4 (Some LexCommand)); [done|simpl; lia].
    - intros ? l1 (Hb1 & body & Ht & Hok & _). cbv beta.
      eapply returns_weaken; [apply emit_spec, Hb1|].
      intros ? l2 (v & _ & Ht2 & _). exists body, v. cbv beta in Ht2.
      split; [|done]. rewrite Ht2, Ht. done. }
  exists body, v. unfold lex. rewrite Hrun, Htoks. destruct Hok. done.
Qed.

(** *** Scanning a known prefix *)

Lemma len_append (a b : string) : len (a +:+ b) = len a + len b.
Proof.
  unfold len. induction a as [|c a IH]; [change ("" +:+ b) with b; simpl; lia|].
  change (String.length (String c a +:+ b)) with (S (String.length (a +:+ b))).
  change (String.length (String c a)) with (S (String.length a)). lia.
Qed.

Lemma get_substring (s : string) : forall n c,
  String.get n s = Some c ->
  (n < String.length s)%nat /\
  exists tl, String.substring n (String.length s - n) s = String c tl.
Proof.
  induction s as [|c0 s IH]; intros n c; simpl; [discriminate|].
  destruct n as [|n].
  - intros [= ->]. split; [lia|]. eexists. reflexivity.
  - intros H. destruct (IH _ _ H) as [Hn [tl Htl]]. split; [lia|].
    exists tl. exact Htl.
Qed.

Lemma substring_all (s : string) : String.substring 0 (String.length s) s = s.
Proof. induction s as [|c s IH]; simpl; congruence. Qed.

Lemma substring_after (a b : string) :
  String.substring (String.length a) (String.length b) (a +:+ b) = b.
Proof.
  induction a as [|c a IH]; [change ("" +:+ b) with b; apply substring_all|].
  change (String c a +:+ b) with (String c (a +:+ b)). simpl. exact IH.
Qed.

(** Reading an ASCII byte at a known place of the input. *)
Lemma next_ascii inp st p w toks c p' (Q : Z -> lexer -> Prop) :
  String.get (Z.to_nat p) inp = Some c ->
  (byte c <? 0x80) = true -> (0 <=? p) = true -> p' = p + 1 ->
  Q (byte c) (mkLexer inp st p' 1 toks) ->
  returns next (mkLexer inp st p w toks) Q.
Proof.
  intros Hget Hc Hp -> HQ. apply Z.leb_le in Hp.
  destruct (get_substring _ _ _ Hget) as [Hn [tl Htl]].
  unfold next. msteps. simpl.
  destruct (Z.leb_spec (len inp) p) as [Hle|Hlt]; [unfold len in Hle; lia|].
  mstep. unfold lift. rewrite slice_ok by lia.
  eexists _, _. split; [reflexivity|].
  replace (Z.to_nat (len inp - p)) with (String.length inp - Z.to_nat p)%nat
    by (unfold len; lia).
  rewrite Htl. unfold DecodeRuneInString. rewrite Hc. msteps. exact HQ.
Qed.

(** Reading the first rune after a known prefix of the input. *)
Lemma next_after (a b : string) st p w toks (Q : Z -> lexer -> Prop) :
  p = len a -> b <> "" ->
  (forall r w', DecodeRuneInString b = (r, w') ->
     Q r (mkLexer (a +:+ b) st (p + w') w' toks)) ->
  returns next (mkLexer (a +:+ b) st p w toks) Q.
Proof.
  intros -> Hb HQ. unfold next. msteps. simpl.
  rewrite len_append.
  assert (0 < len b) as Hlen.
  { unfold len. destruct b; [done|]. simpl String.length. lia. }
  destruct (Z.leb_spec (len a + len b) (len a)) as [Hle|Hlt]; [lia|].
  mstep. unfold lift. rewrite slice_ok by (rewrite ?len_append; unfold len; lia).
  eexists _, _. split; [reflexivity|].
  replace (Z.to_nat (len a)) with (String.length a) by (unfold len; lia).
  replace (Z.to_nat (len a + len b - len a)) with (String.length b)
    by (unfold len; lia).
  rewrite substring_after. destruct (DecodeRuneInString b) as [r w'] eqn:Hd.
  msteps. apply HQ. reflexivity.
Qed.

Lemma current_eq l :
  bounds l ->
  current l =
    Ok (String.substring (Z.to_nat (start l)) (Z.to_nat (pos l - start l)) (input l),
        mkLexer (input l) (pos l) (pos l) (width l) (tokens l)).
Proof.
  intros Hb. unfold bounds in Hb. unfold current, bind, get, lift.
  now rewrite slice_ok by lia.
Qed.

Lemma emit_eq t l :
  bounds l ->
  emit t l =
    Ok (tt, mkLexer (input l) (pos l) (pos l) (width l)
              (tokens l ++ [mkToken t
                 (String.substring (Z.to_nat (start l))
                    (Z.to_nat (pos l - start l)) (input l))])).
Proof.
  intros Hb. unfold emit, bind. now rewrite (current_eq l Hb).
Qed.

Lemma current_ret l (Q : string -> lexer -> Prop) :
  bounds l ->
  Q (String.substring (Z.to_nat (start l)) (Z.to_nat (pos l - start l)) (input l))
    (mkLexer (input l) (pos l) (pos l) (width l) (tokens l)) ->
  returns current l Q.
Proof. intros Hb HQ. eexists _, _. split; [by apply current_eq|done]. Qed.

(** Peeking at the first rune after a known prefix of the input. *)
Lemma peek_after (a b : string) st p w toks (Q : Z -> lexer -> Prop) :
  p = len a -> b <> "" ->
  (forall r w', DecodeRuneInString b = (r, w') ->
     Q r (mkLexer (a +:+ b) st p w' toks)) ->
  returns peek (mkLexer (a +:+ b) st p w toks) Q.
Proof.
  intros Hp Hb HQ. unfold peek. mstep. apply next_after; [done|done|].
  intros r w' Hd. unfold backup. msteps. simpl.
  replace (p + w' - w') with p by lia. by apply HQ.
Qed.

(** The end of [match] and [lexMatch] when the word goes on after the
    keyword: whatever the comparison of the characters said, the rest of
    the word is consumed and an error token is handed over. *)
Lemma no_boundary_rejected (a b : string) st p w toks (done : bool)
    (t : tokenType) (fn : option stateFn)
    (Q : option stateFn -> lexer -> Prop) :
  p = len a -> 0 <= st <= p -> boundary b = false ->
  (forall l' msg,
     input l' = a +:+ b -> tokens l' = toks ++ [mkToken tokenTypeError msg] ->
     bounds l' -> start l' = pos l' -> Q None l') ->
  returns peek (mkLexer (a +:+ b) st p w toks) (fun c l1 =>
    returns (if bool_decide (false = isWhiteSpace c)
             then scanTillWhiteSpace ;;; ret false else ret done) l1
      (fun ok l2 =>
         returns (if ok then emit t ;;; ret fn
                  else str <- current ;;
                       errorToken ("Unexpected token:" +:+ str) ;;; ret None)
           l2 Q)).
Proof.
  intros Hp Hst Hb HQ.
  assert (b <> "") as Hne by (intros ->; discriminate).
  apply peek_after; [done|done|]. intros r w' Hd.
  assert (isWhiteSpace r = false) as Hr.
  { unfold boundary in Hb. rewrite Hd in Hb. by destruct b. }
  rewrite Hr. rewrite bool_decide_eq_true_2 by done.
  assert (bounds (mkLexer (a +:+ b) st p w' toks)) as Hbd.
  { unfold bounds. simpl. rewrite len_append. unfold len in *. lia. }
  mstep. eapply returns_weaken; [apply scanTillWhiteSpace_spec, Hbd|].
  intros ? l2 Hr2. msteps. pose proof (reads_bounds _ _ Hbd Hr2) as Hb2.
  destruct Hr2 as (Hi & Ht & Hs & Hpos). simpl in Hi, Ht, Hs, Hpos.
  apply current_ret; [exact Hb2|].
  unfold errorToken. msteps. simpl.
  eapply HQ; simpl; [exact Hi|by rewrite Ht| |done].
  unfold bounds in *. simpl. lia.
Qed.

Lemma get_prefix (a b : string) : forall n,
  (n < String.length a)%nat -> ascii_only a = true ->
  exists c, String.get n (a +:+ b) = Some c /\ (byte c <? 0x80) = true.
Proof.
  induction a as [|c a IH]; intros n Hn Ha; simpl in Hn; [lia|].
  change (String c a +:+ b) with (String c (a +:+ b)).
  unfold ascii_only in *. simpl in Ha. apply andb_true_iff in Ha as [Hc Ha].
  destruct n as [|n]; simpl.
  - exists c. done.
  - apply IH; [lia|done].
Qed.

Lemma reads_of_nonneg rs : forall skip, 0 <= reads_of rs skip.
Proof.
  induction rs as [|r rs IH]; intros skip; simpl; [lia|].
  destruct (0 <? skip); [apply IH|]. specialize (IH skip). lia.
Qed.

(** Inside an ASCII prefix of the input the loop of [match] advances by
    one byte per rune it reads, whatever the comparisons say. *)
Lemma match_loop_prefix (a b : string) st toks (rs : list Z) :
  ascii_only a = true ->
  forall skip done p w,
    0 <= p -> p + reads_of rs skip <= len a ->
    exists done' w',
      match_loop rs skip done (mkLexer (a +:+ b) st p w toks) =
        Ok (done', mkLexer (a +:+ b) st (p + reads_of rs skip) w' toks).
Proof.
  intros Ha. induction rs as [|r rs IH]; intros skip done p w Hp Hlen; simpl in *.
  - exists done, w. rewrite Z.add_0_r. reflexivity.
  - destruct (0 <? skip); [by apply IH|].
    pose proof (reads_of_nonneg rs skip) as Hk.
    destruct (get_prefix a b (Z.to_nat p)) as (c & Hget & Hc);
      [unfold len in Hlen; lia|done|].
    assert (returns next (mkLexer (a +:+ b) st p w toks) (fun x l' =>
      x = byte c /\ l' = mkLexer (a +:+ b) st (p + 1) 1 toks))
      as (x & l' & Hnext & -> & ->).
    { eapply next_ascii; [exact Hget|exact Hc|by apply Z.leb_le|reflexivity|done]. }
    destruct (IH skip (if negb (r =? byte c) then false else done) (p + 1) 1)
      as (done' & w' & Hloop); [lia|lia|].
    exists done', w'. unfold bind. rewrite Hnext, Hloop.
    by replace (p + 1 + reads_of rs skip) with (p + (1 + reads_of rs skip)) by lia.
Qed.

(** [lexMatch] on a keyword whose last character ends an ASCII prefix of
    the input that is not followed by a word boundary. *)
Lemma lexMatch_past_prefix (a b : string) st p w toks (t : tokenType)
    (str : string) (skip : Z) (fn : option stateFn)
    (Q : option stateFn -> lexer -> Prop) :
  ascii_only a = true -> 0 <= st <= p ->
  p + reads_of (runes str) skip = len a -> boundary b = false ->
  (forall l' msg,
     input l' = a +:+ b -> tokens l' = toks ++ [mkToken tokenTypeError msg] ->
     bounds l' -> start l' = pos l' -> Q None l') ->
  returns (lexMatch t str skip fn) (mkLexer (a +:+ b) st p w toks) Q.
Proof.
  intros Ha Hst Hp Hb HQ. unfold lexMatch, match_. mstep. mstep.
  destruct (match_loop_prefix a b st toks (runes str) Ha skip true p w)
    as (done' & w' & Hloop); [lia|lia|].
  eexists _, _. split; [exact Hloop|]. mstep.
  pose proof (reads_of_nonneg (runes str) skip).
  apply no_boundary_rejected; [done|lia|done|done].
Qed.

(** From the first state function to the token list, when that function
    ends the scan with the lexeme consumed. *)
Lemma lex_of_command (inp : string) (toks : list token) :
  returns lexCommand (mkLexer inp 0 0 0 []) (fun r l' =>
    r = None /\ tokens l' = toks /\ bounds l' /\ start l' = pos l') ->
  lex inp = Ok (toks ++ [mkToken tokenTypeEOF ""]).
Proof.
  intros (r & l' & Hcmd & -> & Ht & Hb & Hs).
  unfold lex, run. unfold bind at 1. simpl. unfold bind at 1. rewrite Hcmd.
  unfold ret at 1. rewrite (emit_eq _ l' Hb). simpl.
  rewrite Hs, Z.sub_diag, substring_none, Ht. reflexivity.
Qed.

Lemma lex_rejects (inp : string) :
  returns lexCommand (mkLexer inp 0 0 0 []) (fun r l' =>
    r = None /\ (exists msg, tokens l' = [mkToken tokenTypeError msg]) /\
    bounds l' /\ start l' = pos l') ->
  exists msg,
    lex inp = Ok [mkToken tokenTypeError msg; mkToken tokenTypeEOF ""].
Proof.
  intros (r & l' & Hcmd & -> & [msg Ht] & Hb & Hs). exists msg.
  apply (lex_of_command inp [mkToken tokenTypeError msg]).
  exists None, l'. done.
Qed.

Ltac eval_cond :=
  lazymatch goal with
  | |- returns (if ?b then _ else _) _ _ =>
      let v := eval vm_compute in b in
      change b with v; cbv iota
  end.

Ltac read_ascii :=
  lazymatch goal with
  | |- returns next (mkLexer ?inp ?st ?p ?w ?toks) ?Q =>
      let p' := eval vm_compute in (p + 1) in
      let st' := eval vm_compute in st in
      change st with st';
      eapply (next_ascii inp st' p w toks _ p' Q);
      [reflexivity | reflexivity | reflexivity | reflexivity | ]
  end.

Ltac scan_step :=
  cbv beta;
  lazymatch goal with
  | |- returns (read_while _ (turns _)) _ _ => unfold turns; cbn [read_while]
  | |- returns next (mkLexer _ _ _ _ _) _ => read_ascii
  | |- returns (if _ then _ else _) _ _ => eval_cond
  | |- returns backup _ _ => unfold backup
  | |- returns ignore _ _ => unfold ignore
  | |- returns lexSkipWhiteSpaces _ _ => unfold lexSkipWhiteSpaces
  | |- returns lexCommand _ _ => unfold lexCommand
  | |- returns lexCommandS _ _ => unfold lexCommandS
  | |- returns lexCommandST _ _ => unfold lexCommandST
  | |- returns (lexMatch _ _ _ _) _ _ => fail
  | |- _ => mstep
  end;
  cbn [input start pos width tokens].

Ltac reject_keyword Hrest :=
  apply lex_rejects; repeat scan_step;
  apply lexMatch_past_prefix;
  [ reflexivity | lia | reflexivity | exact Hrest | ];
  let Ht := fresh "Ht" in
  intros ? ? ? Ht ? ?; split; [reflexivity|]; split; [eexists; exact Ht|]; done.

(** Peeking twice gives the same rune. *)
Lemma peek_again l c l' :
  peek l = Ok (c, l') -> exists l'', peek l' = Ok (c, l'').
Proof.
  destruct l as [inp st p w toks].
  unfold peek, next, backup, bind, get, set_width, set_pos, modify, ret, lift.
  simpl. destruct (len inp <=? p) eqn:Hle; simpl.
  - intros [= <- <-]. simpl. rewrite Z.sub_0_r, Hle. simpl. eauto.
  - destruct (slice inp p (len inp)) as [rest| |] eqn:Hs; try discriminate.
    destruct (DecodeRuneInString rest) as [r w'] eqn:Hd. simpl.
    intros [= <- <-]. simpl. replace (p + w' - w') with p by lia.
    rewrite Hle, Hs, Hd. simpl. eauto.
Qed.

(** When [match] answers [true] the cursor stands before a word boundary. *)
Lemma match_true_boundary str skip l l' :
  match_ str skip l = Ok (true, l') ->
  exists c l'', peek l' = Ok (c, l'') /\ isWhiteSpace c = true.
Proof.
  unfold match_. unfold bind at 1.
  destruct (match_loop (runes str) skip true l) as [[done l1]| |]; try discriminate.
  unfold bind at 1. destruct (peek l1) as [[c l2]| |] eqn:Hpeek; try discriminate.
  case_bool_decide as Hc.
  - unfold bind. destruct (scanTillWhiteSpace l2) as [[? ?]| |]; discriminate.
  - intros [= -> <-]. destruct (peek_again _ _ _ Hpeek) as [l3 Hl3].
    exists c, l3. split; [done|]. by destruct (isWhiteSpace c).
Qed.

(** C6.  A keyword that is directly followed by a further character
    which is not a word boundary (neither white space nor the end of the
    input) is not matched: the scan hands over an error token, then the
    end-of-input token, and no keyword token.  In every state, [match]
    answers [true] only with the cursor before white space or at the end
    of the input. *)
Theorem keyword_needs_boundary (kw rest : string) :
  kw ∈ keywords -> boundary rest = false ->
  (exists msg,
     lex (kw +:+ rest) =
       Ok [mkToken tokenTypeError msg; mkToken tokenTypeEOF ""]) /\
  (forall str skip l l',
     match_ str skip l = Ok (true, l') ->
     exists c l'', peek l' = Ok (c, l'') /\ isWhiteSpace c = true).
Proof.
  intros Hkw Hrest. split; [|apply match_true_boundary].
  unfold keywords in Hkw.
  repeat (apply elem_of_cons in Hkw as [->|Hkw]; [reject_keyword Hrest|]).
  inversion Hkw.
Qed.

(** C4, amended.  The scan of [select * from t1] stops after the keyword:
    [lexMatch] is given no next state for [select], so the consumer
    receives the select token and the end-of-input token only. *)
Theorem lex_select_star_from :
  lex "select * from t1" =
    Ok [mkToken tokenTypeSqlSelect "select"; mkToken tokenTypeEOF ""].
Proof. vm_compute. reflexivity. Qed.

(** C5.  The words [start], [status] and [stop] give their command
    tokens.  Other words that begin with [st] do not all give an error
    token: the character that tells [stop] from the rest, and the fourth
    character of [status], are read and skipped without being compared, so
    that [stxp] gives the stop token and [staxus] the status token. *)
Theorem lex_st_words :
  lex "start" = Ok [mkToken tokenTypeCmdStart "start"; mkToken tokenTypeEOF ""] /\
  lex "status" = Ok [mkToken tokenTypeCmdStatus "status"; mkToken tokenTypeEOF ""] /\
  lex "stop" = Ok [mkToken tokenTypeCmdStop "stop"; mkToken tokenTypeEOF ""] /\
  lex "stxp" = Ok [mkToken tokenTypeCmdStop "stxp"; mkToken tokenTypeEOF ""] /\
  lex "staxus" = Ok [mkToken tokenTypeCmdStatus "staxus"; mkToken tokenTypeEOF ""].
Proof. repeat split; vm_compute; reflexivity. Qed.

(** *** What the scanner hands over *)

Lemma emits_ret P {A : Type} (a : A) : emits P (ret a).
Proof.
  intros l a' l' [= <- <-]. split; [done|]. exists []. by rewrite app_nil_r.
Qed.

Lemma emits_bind P {A B : Type} (c : M lexer A) (k : A -> M lexer B) :
  emits P c -> (forall a, emits P (k a)) -> emits P (bind c k).
Proof.
  intros Hc Hk l b l'. unfold bind.
  destruct (c l) as [[a l1]| |] eqn:Hcl; try discriminate. intros Hkl.
  destruct (Hc _ _ _ Hcl) as (Hi1 & new1 & Ht1 & HP1).
  destruct (Hk a _ _ _ Hkl) as (Hi2 & new2 & Ht2 & HP2).
  split; [congruence|]. exists (new1 ++ new2).
  split; [by rewrite Ht2, Ht1, app_assoc|].
  apply Forall_app. split; [done|]. by rewrite <- Hi1.
Qed.

Lemma emits_get P : emits P get.
Proof.
  intros l a l' [= <- <-]. split; [done|]. exists []. by rewrite app_nil_r.
Qed.

Lemma emits_cursor P (f : lexer -> lexer) :
  (forall l, input (f l) = input l /\ tokens (f l) = tokens l) ->
  emits P (modify f).
Proof.
  intros Hf l a l' [= <- <-]. destruct (Hf l) as [Hi Ht].
  split; [done|]. exists []. by rewrite app_nil_r.
Qed.

Lemma emits_lift P {A : Type} (r : result A) : emits P (lift r).
Proof.
  intros l a l'. unfold lift. destruct r; try discriminate.
  intros [= <- <-]. split; [done|]. exists []. by rewrite app_nil_r.
Qed.

Lemma emits_Consume (P : string -> token -> Prop) (t : token) :
  (forall inp, P inp t) -> emits P (Consume t).
Proof.
  intros Ht l a l' [= <- <-]. simpl. split; [done|]. exists [t].
  split; [done|]. by constructor.
Qed.

Lemma emits_out_of_fuel P {A : Type} : emits P (@out_of_fuel A).
Proof. intros l a l'. discriminate. Qed.

Ltac emits_step :=
  lazymatch goal with
  | |- emits _ (bind _ _) => apply emits_bind; [|intros ?]
  | |- emits _ (ret _) => apply emits_ret
  | |- emits _ get => apply emits_get
  | |- emits _ (set_start _) => apply emits_cursor; intros ?; done
  | |- emits _ (set_pos _) => apply emits_cursor; intros ?; done
  | |- emits _ (set_width _) => apply emits_cursor; intros ?; done
  | |- emits _ (lift _) => apply emits_lift
  | |- emits _ out_of_fuel => apply emits_out_of_fuel
  | |- emits _ (if ?b then _ else _) => destruct b
  | |- emits _ (let '(_, _) := ?p in _) => destruct p
  end.

Lemma emits_next P : emits P next.
Proof. unfold next. repeat emits_step. Qed.

Lemma emits_backup P : emits P backup.
Proof. unfold backup. repeat emits_step. Qed.

Lemma emits_peek P : emits P peek.
Proof.
  unfold peek. repeat emits_step; [apply emits_next|apply emits_backup].
Qed.

Lemma emits_ignore P : emits P ignore.
Proof. unfold ignore. repeat emits_step. Qed.

Lemma emits_read_while P cond fuel : emits P (read_while cond fuel).
Proof.
  induction fuel as [|fuel IH]; simpl; [apply emits_out_of_fuel|].
  apply emits_bind; [apply emits_next|]. intros r.
  destruct (cond r); [exact IH|apply emits_ret].
Qed.

Lemma emits_match_loop P rs : forall skip done, emits P (match_loop rs skip done).
Proof.
  induction rs as [|r rs IH]; intros skip done; simpl; [apply emits_ret|].
  destruct (0 <? skip); [apply IH|].
  apply emits_bind; [apply emits_next|]. intros c. apply IH.
Qed.

Lemma emits_scanTillWhiteSpace P : emits P scanTillWhiteSpace.
Proof.
  unfold scanTillWhiteSpace. repeat emits_step. apply emits_read_while.
Qed.

Lemma emits_lexSkipWhiteSpaces P : emits P lexSkipWhiteSpaces.
Proof.
  unfold lexSkipWhiteSpaces. repeat emits_step;
    [apply emits_read_while|apply emits_backup|apply emits_ignore].
Qed.

Lemma emits_match P str skip : emits P (match_ str skip).
Proof.
  unfold match_. repeat emits_step;
    first [apply emits_match_loop|apply emits_peek|apply emits_scanTillWhiteSpace].
Qed.

(** The string [current] returns is a slice of the input. *)
Lemma current_slice l str l' :
  current l = Ok (str, l') ->
  input l' = input l /\ tokens l' = tokens l /\
  exists lo n, str = String.substring lo n (input l).
Proof.
  unfold current, bind, get, lift, slice.
  destruct ((0 <=? start l) && (start l <=? pos l) && (pos l <=? len (input l)));
    [|discriminate].
  intros [= <- <-]. simpl. eauto.
Qed.

Lemma emits_current P : emits P current.
Proof.
  intros l str l' H. destruct (current_slice _ _ _ H) as (Hi & Ht & _).
  split; [done|]. exists []. by rewrite app_nil_r.
Qed.

Lemma emits_errorToken format : emits scanned (errorToken format).
Proof.
  unfold errorToken. repeat emits_step.
  apply emits_Consume. intros inp. by left.
Qed.

Lemma emits_emit t : t ∈ scanned_kinds -> emits scanned (emit t).
Proof.
  intros Ht l a l'. unfold emit, bind.
  destruct (current l) as [[str l1]| |] eqn:Hc; try discriminate.
  destruct (current_slice _ _ _ Hc) as (Hi & Htoks & lo & n & ->).
  intros [= <- <-]. simpl. split; [done|].
  eexists [_]. rewrite Htoks. split; [done|]. constructor; [|done].
  right. simpl. eauto.
Qed.

Ltac kind_listed := apply (bool_decide_unpack _); vm_compute; reflexivity.

Lemma emits_lexMatch t command skip fn :
  t ∈ scanned_kinds -> emits scanned (lexMatch t command skip fn).
Proof.
  intros Ht. unfold lexMatch. repeat emits_step;
    first [apply emits_match|by apply emits_emit|apply emits_current
          |apply emits_errorToken].
Qed.

Ltac emits_scan :=
  repeat emits_step;
  first [ apply emits_lexMatch; kind_listed
        | apply emits_emit; kind_listed
        | apply emits_next | apply emits_backup | apply emits_current
        | apply emits_errorToken | apply emits_lexSkipWhiteSpaces
        | apply emits_read_while | apply emits_get ].

Lemma emits_lexCommandST : emits scanned lexCommandST.
Proof. unfold lexCommandST. emits_scan. Qed.

Lemma emits_lexCommandS : emits scanned lexCommandS.
Proof.
  unfold lexCommandS. repeat emits_step;
    first [apply emits_lexCommandST|emits_scan].
Qed.

Lemma emits_lexCommand : emits scanned lexCommand.
Proof.
  unfold lexCommand. repeat emits_step;
    first [apply emits_lexCommandS|emits_scan].
Qed.

Lemma emits_call f : emits scanned (call f).
Proof.
  destruct f; simpl.
  - apply emits_lexCommand.
  - unfold lexSqlInsertInto. emits_scan.
  - unfold lexSqlInsertIntoTable, lexSqlIdentifier. emits_scan.
  - unfold lexSqlInsertIntoTableLeftParenthesis, lexSqlLeftParenthesis. emits_scan.
Qed.

Lemma emits_run_loop fuel : forall state, emits scanned (run_loop fuel state).
Proof.
  induction fuel as [|fuel IH]; intros [f|]; simpl;
    try apply emits_ret; try apply emits_out_of_fuel.
  apply emits_bind; [apply emits_call|]. intros r. apply IH.
Qed.

Lemma emits_run : emits scanned run.
Proof.
  unfold run. apply emits_bind; [apply emits_run_loop|]. intros _.
  apply emits_emit. kind_listed.
Qed.

(** The loop of [run] hands over at most one token per state function
    it can still go through. *)
Lemma run_loop_count (fuel : nat) : forall state l,
  bounds l ->
  match state with Some f => (rank f <= fuel)%nat | None => True end ->
  returns (run_loop fuel state) l (fun _ l' =>
    bounds l' /\ exists body,
      tokens l' = tokens l ++ body /\
      (length body <= match state with Some f => rank f | None => 0 end)%nat).
Proof.
  induction fuel as [|fuel IH]; intros state l Hb Hrank.
  - destruct state as [f|]; [destruct f; simpl in Hrank; lia|].
    simpl. mstep. split; [done|]. exists []. by rewrite app_nil_r.
  - destruct state as [f|]; simpl.
    + mstep. eapply returns_weaken; [apply call_spec, Hb|].
      intros r l1 (tok & (Hi & Ht & Hb1) & Heof & Hr).
      eapply returns_weaken.
      * apply IH; [done|]. destruct r as [f'|]; [|done]. lia.
      * intros ? l2 (Hb2 & body & Ht2 & Hlen). cbv beta.
        split; [done|]. exists (tok :: body).
        split; [rewrite Ht2, Ht, <- app_assoc; done|]. simpl.
        destruct r as [f'|]; [destruct Hr; lia|destruct f; simpl in *; lia].
    + mstep. split; [done|]. exists []. by rewrite app_nil_r.
Qed.

Lemma lex_returns (inp : string) :
  exists toks, lex inp = Ok toks /\ (length toks <= 5)%nat.
Proof.
  assert (bounds (mkLexer inp 0 0 0 [])) as Hb.
  { unfold bounds, len. simpl. lia. }
  assert (returns run (mkLexer inp 0 0 0 []) (fun _ l' =>
    (length (tokens l') <= 5)%nat)) as (u & l' & Hrun & Hlen).
  { unfold run. mstep. eapply returns_weaken.
    - apply (run_loop_count 4 (Some LexCommand)); [done|simpl; lia].
    - intros ? l1 (Hb1 & body & Ht & Hlen). cbv beta.
      eapply returns_weaken; [apply emit_spec, Hb1|].
      intros ? l2 (v & _ & Ht2 & _). cbv beta in Ht2.
      rewrite Ht2, Ht, length_app. simpl in *. lia. }
  exists (tokens l'). unfold lex. rewrite Hrun. done.
Qed.

Lemma lex_scanned (inp : string) (toks : list token) :
  lex inp = Ok toks -> Forall (scanned inp) toks.
Proof.
  unfold lex. destruct (run (mkLexer inp 0 0 0 [])) as [[u l']| |] eqn:Hrun;
    try discriminate.
  intros [= <-]. destruct (emits_run _ _ _ Hrun) as (_ & new & Ht & HP).
  simpl in Ht, HP. by rewrite Ht.
Qed.

(** X5.  Every scan returns, and the value of each token it hands over,
    error tokens apart, is a slice of the input. *)
Theorem lex_values_are_slices (inp : string) :
  exists toks,
    lex inp = Ok toks /\
    Forall (fun tok =>
              typ tok = tokenTypeError \/
              exists lo n, val tok = String.substring lo n inp) toks.
Proof.
  destruct (lex_returns inp) as (toks & Hlex & _). exists toks.
  split; [done|]. eapply Forall_impl; [exact (lex_scanned _ _ Hlex)|].
  intros tok [H|[_ H]]; [by left|by right].
Qed.

(** X6.  A scan hands over at most five tokens, and only tokens of the
    fourteen kinds the state functions emit or error tokens: no star,
    from, where, identifier, value, comma, equal, right parenthesis, quote,
    string, create or white space token ever reaches the consumer. *)
Theorem lex_kinds_and_count (inp : string) :
  exists toks,
    lex inp = Ok toks /\ (length toks <= 5)%nat /\
    Forall (fun tok => typ tok ∈ tokenTypeError :: scanned_kinds) toks.
Proof.
  destruct (lex_returns inp) as (toks & Hlex & Hlen). exists toks.
  split; [done|]. split; [done|].
  eapply Forall_impl; [exact (lex_scanned _ _ Hlex)|].
  intros tok [H|[H _]]; [rewrite H; by constructor|by constructor].
Qed.

(** *** Scanning past a known part of the input *)

Lemma returns_eq {A : Type} (c : M lexer A) l (v : A) l1 :
  returns c l (fun a l' => a = v /\ l' = l1) -> c l = Ok (v, l1).
Proof. intros (a & l' & Hc & -> & ->). exact Hc. Qed.

Lemma returns_of_eq {A : Type} (c : M lexer A) l (v : A) l1
    (Q : A -> lexer -> Prop) :
  c l = Ok (v, l1) -> Q v l1 -> returns c l Q.
Proof. intros Hc HQ. exists v, l1. done. Qed.

Ltac by_eq L := eapply returns_of_eq; [L|cbv beta].

Lemma string_app_assoc (a b c : string) : (a +:+ b) +:+ c = a +:+ (b +:+ c).
Proof.
  induction a as [|x a IH]; [reflexivity|].
  change (String x a +:+ b) with (String x (a +:+ b)).
  change (String x (a +:+ b) +:+ c) with (String x ((a +:+ b) +:+ c)).
  change (String x a +:+ (b +:+ c)) with (String x (a +:+ (b +:+ c))).
  by rewrite IH.
Qed.

Lemma substring_prefix (a b : string) : forall n m,
  (n + m <= String.length a)%nat ->
  String.substring n m (a +:+ b) = String.substring n m a.
Proof.
  induction a as [|c a IH]; intros n m Hnm.
  - simpl in Hnm. assert (n = 0%nat) as -> by lia. assert (m = 0%nat) as -> by lia.
    change ("" +:+ b) with b. by rewrite substring_none.
  - change (String c a +:+ b) with (String c (a +:+ b)). simpl in Hnm.
    destruct n as [|n]; simpl.
    + destruct m as [|m]; [done|]. f_equal. apply IH. lia.
    + apply IH. lia.
Qed.

Lemma substring_suffix (a b : string) (m : nat) :
  String.substring (String.length a) m (a +:+ b) = String.substring 0 m b.
Proof.
  induction a as [|c a IH]; [reflexivity|].
  change (String c a +:+ b) with (String c (a +:+ b)). simpl. exact IH.
Qed.

Lemma bytes_of_cons (c : ascii) (s : string) :
  bytes_of (String c s) = byte c :: bytes_of s.
Proof. reflexivity. Qed.

Lemma length_bytes_of (s : string) : length (bytes_of s) = String.length s.
Proof.
  induction s as [|c s IH]; [reflexivity|].
  rewrite bytes_of_cons. simpl. by rewrite IH.
Qed.

Lemma get_bytes_of (s : string) : forall k c,
  bytes_of s !! k = Some c -> exists ch, String.get k s = Some ch /\ byte ch = c.
Proof.
  induction s as [|x s IH]; intros k c; [destruct k; discriminate|].
  rewrite bytes_of_cons. destruct k as [|k]; simpl.
  - intros [= <-]. eauto.
  - apply IH.
Qed.

Lemma get_app_l (a b : string) : forall k ch,
  String.get k a = Some ch -> String.get k (a +:+ b) = Some ch.
Proof.
  induction a as [|x a IH]; intros k ch; [destruct k; discriminate|].
  change (String x a +:+ b) with (String x (a +:+ b)).
  destruct k as [|k]; simpl; [done|apply IH].
Qed.

Lemma get_app_r (a b : string) (k : nat) :
  String.get (String.length a + k) (a +:+ b) = String.get k b.
Proof.
  induction a as [|x a IH]; [reflexivity|].
  change (String x a +:+ b) with (String x (a +:+ b)). simpl. exact IH.
Qed.

Lemma ascii_only_bytes (s : string) :
  ascii_only s = true -> Forall (fun c => (c <? 0x80) = true) (bytes_of s).
Proof.
  unfold ascii_only. induction s as [|x s IH]; [constructor|].
  rewrite bytes_of_cons. simpl. intros [Hx Hs]%andb_true_iff.
  constructor; [done|by apply IH].
Qed.

Lemma lookahead_nonempty (b : string) :
  b <> "" -> lookahead b = DecodeRuneInString b.
Proof. by destruct b. Qed.

Lemma lookahead_width (b : string) : 0 <= snd (lookahead b) <= len b.
Proof.
  destruct (decide (b = "")) as [->|Hne]; [done|].
  rewrite lookahead_nonempty by done. pose proof (decode_width b Hne). lia.
Qed.

Lemma lookahead_head (s b : string) (c : Z) :
  bytes_of s !! 0%nat = Some c -> (c <? 0x80) = true ->
  lookahead (s +:+ b) = (c, 1).
Proof.
  destruct s as [|x s]; [discriminate|]. rewrite bytes_of_cons. simpl.
  intros [= <-] Hc. change (String x s +:+ b) with (String x (s +:+ b)).
  unfold lookahead, DecodeRuneInString. by rewrite Hc.
Qed.

Lemma boundary_lookahead (b : string) :
  boundary b = true -> isWhiteSpace (fst (lookahead b)) = true.
Proof. by destruct b. Qed.

Lemma bounds_at (a b : string) w toks :
  bounds (mkLexer (a +:+ b) (len a) (len a) w toks).
Proof. unfold bounds. simpl. rewrite len_append. unfold len. lia. Qed.

(** Reading at the end of a known prefix of the input. *)
Lemma next_at (a b : string) st p w toks :
  p = len a ->
  next (mkLexer (a +:+ b) st p w toks) =
    Ok (fst (lookahead b),
        mkLexer (a +:+ b) st (p + snd (lookahead b)) (snd (lookahead b)) toks).
Proof.
  intros ->. destruct (decide (b = "")) as [->|Hne].
  - unfold next, bind, get, set_width, set_pos, modify, ret. simpl.
    rewrite len_append. change (len "") with 0.
    destruct (Z.leb_spec (len a + 0) (len a)); [|lia]. by rewrite Z.add_0_r.
  - apply returns_eq. apply next_after; [done|done|]. intros r w' Hd.
    rewrite lookahead_nonempty, Hd by done. done.
Qed.

Lemma peek_at (a b : string) st p w toks :
  p = len a ->
  peek (mkLexer (a +:+ b) st p w toks) =
    Ok (fst (lookahead b), mkLexer (a +:+ b) st p (snd (lookahead b)) toks).
Proof.
  intros Hp. apply returns_eq. unfold peek. mstep.
  by_eq ltac:(apply next_at; exact Hp). unfold backup. msteps. simpl.
  split; [done|]. f_equal. lia.
Qed.

(** Reading an ASCII byte of a known part [s] of the input. *)
Lemma next_in (a s b : string) st p w toks (k c : Z) :
  bytes_of s !! Z.to_nat k = Some c -> (c <? 0x80) = true ->
  0 <= k -> p = len a + k ->
  next (mkLexer (a +:+ (s +:+ b)) st p w toks) =
    Ok (c, mkLexer (a +:+ (s +:+ b)) st (len a + (k + 1)) 1 toks).
Proof.
  intros Hk Hc Hk0 ->. destruct (get_bytes_of _ _ _ Hk) as (ch & Hget & <-).
  apply returns_eq.
  eapply next_ascii; [|exact Hc| |reflexivity|split; [done|f_equal; lia]].
  - replace (Z.to_nat (len a + k)) with (String.length a + Z.to_nat k)%nat
      by (unfold len; lia).
    rewrite get_app_r. by apply get_app_l.
  - apply Z.leb_le. unfold len. lia.
Qed.

(** A loop of the scanner over a part [s] of the input whose bytes all
    satisfy the condition, when what follows [s] does not. *)
Lemma read_while_run (cond : Z -> bool) (a s b : string) st toks :
  ascii_only s = true -> cond (fst (lookahead b)) = false ->
  forall fuel k p w,
    0 <= k <= len s -> p = len a + k ->
    Forall (fun c => cond c = true) (drop (Z.to_nat k) (bytes_of s)) ->
    len s - k < Z.of_nat fuel ->
    read_while cond fuel (mkLexer (a +:+ (s +:+ b)) st p w toks) =
      Ok (tt, mkLexer (a +:+ (s +:+ b)) st
                (len a + len s + snd (lookahead b)) (snd (lookahead b)) toks).
Proof.
  intros Hs Hb. induction fuel as [|fuel IH]; intros k p w Hk -> HF Hfuel; [lia|].
  simpl. unfold bind. destruct (decide (k = len s)) as [->|Hne].
  - rewrite <- string_app_assoc.
    rewrite (next_at (a +:+ s) b) by (by rewrite len_append).
    by rewrite Hb.
  - destruct (lookup_lt_is_Some_2 (bytes_of s) (Z.to_nat k)) as [c Hc].
    { rewrite length_bytes_of. unfold len in *. lia. }
    pose proof (ascii_only_bytes s Hs) as Hascii.
    rewrite Forall_forall in Hascii.
    assert ((c <? 0x80) = true) as Hc80.
    { apply Hascii. eapply list_elem_of_lookup_2. exact Hc. }
    rewrite (drop_S _ _ _ Hc) in HF. apply Forall_cons in HF as [Hcond HF].
    rewrite (next_in a s b st _ w toks k c) by (done || lia).
    rewrite Hcond. apply (IH (k + 1)); [lia|lia| |lia].
    by replace (Z.to_nat (k + 1)) with (S (Z.to_nat k)) by lia.
Qed.

Lemma ascii_space_spec (c : Z) :
  ascii_space c = true ->
  IsSpace c = true /\ (c <? 0x80) = true /\
  IsLetter c = false /\ IsDigit c = false.
Proof.
  unfold ascii_space. intros H.
  repeat (apply orb_true_iff in H as [H|H]);
    apply Z.eqb_eq in H; subst c; done.
Qed.

Lemma ascii_letter_spec (c : Z) :
  ascii_letter c = true ->
  IsLetter c = true /\ (c <? 0x80) = true /\ IsSpace c = false.
Proof.
  unfold ascii_letter. intros H.
  assert (65 <= c <= 122) as Hc.
  { apply orb_true_iff in H as [H|H]; apply andb_true_iff in H as [H1 H2];
      apply Z.leb_le in H1, H2; lia. }
  split; [|split].
  - unfold IsLetter.
    replace ((0 <=? c) && (c <? 0x80)) with true; [exact H|].
    symmetry. apply andb_true_iff. split; [apply Z.leb_le|apply Z.ltb_lt]; lia.
  - apply Z.ltb_lt. lia.
  - unfold IsSpace, MaxLatin1.
    replace ((0 <=? c) && (c <=? 0xFF)) with true
      by (symmetry; apply andb_true_iff; split; apply Z.leb_le; lia).
    repeat (rewrite (proj2 (Z.eqb_neq c _)) by lia). reflexivity.
Qed.

Lemma ascii_digit_spec (c : Z) :
  ascii_digit c = true -> IsDigit c = true /\ (c <? 0x80) = true.
Proof.
  unfold ascii_digit, IsDigit, MaxLatin1. intros H. pose proof H as H'.
  apply andb_true_iff in H' as [H1 H2]. apply Z.leb_le in H1, H2.
  split; [|apply Z.ltb_lt; lia].
  replace (c <=? 0xFF) with true by (symmetry; apply Z.leb_le; lia). exact H.
Qed.

Lemma forallb_Forall {A : Type} (f : A -> bool) (l : list A) :
  forallb f l = true -> Forall (fun x => f x = true) l.
Proof.
  induction l as [|x l IH]; simpl; [constructor|].
  intros [Hx Hl]%andb_true_iff. constructor; [done|by apply IH].
Qed.

Lemma bytes_ascii_only (s : string) :
  Forall (fun c => (c <? 0x80) = true) (bytes_of s) -> ascii_only s = true.
Proof.
  unfold ascii_only. induction s as [|x s IH]; [done|].
  rewrite bytes_of_cons. simpl. intros [Hx Hs]%Forall_cons.
  rewrite Hx. by apply IH.
Qed.

Lemma blank_spaces (ws : string) :
  blank ws = true -> Forall (fun c => IsSpace c = true) (bytes_of ws).
Proof.
  intros H. eapply Forall_impl; [exact (forallb_Forall _ _ H)|].
  intros c Hc. by apply ascii_space_spec.
Qed.

Lemma blank_ascii (ws : string) : blank ws = true -> ascii_only ws = true.
Proof.
  intros H. apply bytes_ascii_only.
  eapply Forall_impl; [exact (forallb_Forall _ _ H)|].
  intros c Hc. by apply ascii_space_spec.
Qed.

Lemma blank_boundary (ws b : string) :
  blank ws = true -> ws <> "" -> boundary (ws +:+ b) = true.
Proof.
  intros H Hne. destruct ws as [|x ws]; [done|].
  unfold blank in H. rewrite bytes_of_cons in H. simpl in H.
  apply andb_true_iff in H as [Hx _].
  destruct (ascii_space_spec _ Hx) as (Hsp & H80 & _).
  change (String x ws +:+ b) with (String x (ws +:+ b)).
  unfold boundary, DecodeRuneInString. rewrite H80. simpl.
  unfold isWhiteSpace. by rewrite Hsp.
Qed.

Lemma identifier_spec (s : string) :
  identifier s = true ->
  exists c, bytes_of s !! 0%nat = Some c /\ ascii_letter c = true /\
    Forall (fun c => IsLetter c || IsDigit c = true) (drop 1 (bytes_of s)) /\
    ascii_only s = true.
Proof.
  unfold identifier. destruct (bytes_of s) as [|c cs] eqn:Hs; [discriminate|].
  intros [Hc Hcs]%andb_true_iff. exists c. split; [done|]. split; [done|].
  apply forallb_Forall in Hcs. split.
  - simpl. rewrite drop_0. eapply Forall_impl; [exact Hcs|].
    intros x [Hx|Hx]%orb_true_iff.
    + destruct (ascii_letter_spec _ Hx) as [-> _]. done.
    + destruct (ascii_digit_spec _ Hx) as [-> _]. by rewrite orb_true_r.
  - apply bytes_ascii_only. rewrite Hs. constructor.
    + by apply ascii_letter_spec.
    + eapply Forall_impl; [exact Hcs|].
      intros x [Hx|Hx]%orb_true_iff;
        [by apply ascii_letter_spec|by apply ascii_digit_spec].
Qed.

(** [lexSkipWhiteSpaces] before blanks that are followed by something
    else: the cursor ends after the blanks, with nothing pending. *)
Lemma lexSkipWhiteSpaces_run (a ws b : string) st p w toks :
  p = len a -> blank ws = true -> IsSpace (fst (lookahead b)) = false ->
  lexSkipWhiteSpaces (mkLexer (a +:+ (ws +:+ b)) st p w toks) =
    Ok (tt, mkLexer ((a +:+ ws) +:+ b) (len (a +:+ ws)) (len (a +:+ ws))
              (snd (lookahead b)) toks).
Proof.
  intros -> Hws Hb. apply returns_eq. unfold lexSkipWhiteSpaces. msteps.
  by_eq ltac:(apply (read_while_run IsSpace a ws b st toks (blank_ascii _ Hws) Hb
                       _ 0);
              [unfold len; lia|lia|exact (blank_spaces _ Hws)|]).
  - unfold turns. simpl input. pose proof (len_append a (ws +:+ b)).
    pose proof (len_append ws b). unfold len in *. lia.
  - unfold backup. msteps. unfold ignore. msteps. simpl.
    split; [done|]. rewrite string_app_assoc, len_append. f_equal; lia.
Qed.

(** Inside a known ASCII part of the input the loop of [match] answers
    what [verdict] computes from the bytes under the cursor. *)
Lemma match_loop_word (a s b : string) st toks (rs : list Z) :
  ascii_only s = true ->
  forall skip done k p w,
    0 <= k -> p = len a + k -> k + reads_of rs skip <= len s ->
    exists w',
      match_loop rs skip done (mkLexer (a +:+ (s +:+ b)) st p w toks) =
        Ok (verdict rs skip done (drop (Z.to_nat k) (bytes_of s)),
            mkLexer (a +:+ (s +:+ b)) st (len a + (k + reads_of rs skip)) w' toks).
Proof.
  intros Hs. induction rs as [|r rs IH]; intros skip done k p w Hk -> Hlen;
    simpl in *.
  - exists w. rewrite Z.add_0_r. reflexivity.
  - destruct (0 <? skip); [by apply IH|].
    pose proof (reads_of_nonneg rs skip) as Hr.
    destruct (lookup_lt_is_Some_2 (bytes_of s) (Z.to_nat k)) as [c Hc].
    { rewrite length_bytes_of. unfold len in *. lia. }
    pose proof (ascii_only_bytes s Hs) as Hascii.
    rewrite Forall_forall in Hascii.
    assert ((c <? 0x80) = true) as Hc80.
    { apply Hascii. eapply list_elem_of_lookup_2. exact Hc. }
    destruct (IH skip (if negb (r =? c) then false else done) (k + 1)
                (len a + (k + 1)) 1) as (w' & Hloop); [lia|lia|lia|].
    exists w'. unfold bind.
    rewrite (next_in a s b st _ w toks k c) by (done || lia).
    rewrite Hloop, (drop_S _ _ _ Hc).
    replace (Z.to_nat (k + 1)) with (S (Z.to_nat k)) by lia.
    by replace (k + 1 + reads_of rs skip) with (k + (1 + reads_of rs skip)) by lia.
Qed.

(** [lexMatch] on a keyword whose characters the bytes of the word [s]
    under the cursor agree with, when a word boundary follows [s]. *)
Lemma lexMatch_word (a s b : string) p w toks (t : tokenType)
    (str : string) (skip : Z) (fn : option stateFn) (k : Z) :
  ascii_only s = true -> 0 <= k -> p = len a + k ->
  k + reads_of (runes str) skip = len s ->
  verdict (runes str) skip true (drop (Z.to_nat k) (bytes_of s)) = true ->
  boundary b = true ->
  lexMatch t str skip fn (mkLexer (a +:+ (s +:+ b)) (len a) p w toks) =
    Ok (fn, mkLexer ((a +:+ s) +:+ b) (len (a +:+ s)) (len (a +:+ s))
              (snd (lookahead b)) (toks ++ [mkToken t s])).
Proof.
  intros Hs Hk Hp Hreads Hv Hb.
  destruct (match_loop_word a s b (len a) toks (runes str) Hs skip true k p w)
    as (w1 & Hloop); [lia|done|lia|].
  rewrite Hv, Hreads in Hloop.
  apply returns_eq. unfold lexMatch, match_. mstep. mstep.
  by_eq ltac:(exact Hloop). mstep. rewrite <- string_app_assoc.
  by_eq ltac:(apply (peek_at (a +:+ s) b); by rewrite len_append).
  rewrite (boundary_lookahead _ Hb), bool_decide_eq_false_2 by done.
  mstep. mstep.
  assert (bounds (mkLexer ((a +:+ s) +:+ b) (len a) (len a + len s)
                    (snd (lookahead b)) toks)) as Hbd.
  { unfold bounds. simpl. rewrite !len_append. unfold len. lia. }
  by_eq ltac:(apply emit_eq; exact Hbd). mstep. simpl.
  split; [done|]. rewrite len_append. do 3 f_equal.
  rewrite string_app_assoc.
  replace (Z.to_nat (len a)) with (String.length a) by (unfold len; lia).
  replace (Z.to_nat (len a + len s - len a)) with (String.length s)
    by (unfold len; lia).
  rewrite substring_suffix, substring_prefix by lia. by rewrite substring_all.
Qed.

(** [lexSqlIdentifier] before blanks, an ASCII identifier and something
    that is neither a letter nor a digit. *)
Lemma lexSqlIdentifier_accepts (a ws ident b : string) st p w toks
    (t : tokenType) (fn : option stateFn) :
  p = len a -> blank ws = true -> identifier ident = true ->
  IsLetter (fst (lookahead b)) || IsDigit (fst (lookahead b)) = false ->
  lexSqlIdentifier t fn
      (mkLexer (a +:+ (ws +:+ (ident +:+ b))) st p w toks) =
    Ok (fn, mkLexer (((a +:+ ws) +:+ ident) +:+ b)
              (len ((a +:+ ws) +:+ ident)) (len ((a +:+ ws) +:+ ident))
              (snd (lookahead b)) (toks ++ [mkToken t ident])).
Proof.
  intros Hp Hws Hid Hb.
  destruct (identifier_spec _ Hid) as (c & Hc & Hletter & Hrest & Hascii).
  destruct (ascii_letter_spec _ Hletter) as (HL & H80 & HS).
  apply returns_eq. unfold lexSqlIdentifier. mstep.
  by_eq ltac:(apply lexSkipWhiteSpaces_run;
              [exact Hp|exact Hws|by rewrite (lookahead_head _ _ _ Hc H80)]).
  mstep. set (A := a +:+ ws).
  by_eq ltac:(apply (next_in A ident b _ _ _ _ 0 c); [exact Hc|exact H80|lia|lia]).
  rewrite HL. cbn [negb]. msteps.
  by_eq ltac:(apply (read_while_run _ A ident b _ _ Hascii Hb _ 1);
              [|reflexivity|exact Hrest|]).
  - assert (0 < len ident); [|lia].
    unfold len. rewrite <- length_bytes_of.
    destruct (bytes_of ident); [discriminate|]. simpl. lia.
  - unfold turns. simpl input. pose proof (len_append A (ident +:+ b)).
    pose proof (len_append ident b). unfold len in *. lia.
  - mstep. unfold backup. msteps. cbn [input start pos width tokens].
    pose proof (lookahead_width b) as Hw.
    assert (bounds (mkLexer (A +:+ (ident +:+ b)) (len A)
                      (len A + len ident + snd (lookahead b) - snd (lookahead b))
                      (snd (lookahead b)) toks)) as Hbd.
    { unfold bounds. simpl. rewrite !len_append. unfold len in *. lia. }
    by_eq ltac:(apply emit_eq; exact Hbd). mstep. simpl.
    split; [done|]. rewrite string_app_assoc, (len_append A ident).
    f_equal; try lia. do 2 f_equal.
    replace (Z.to_nat (len A)) with (String.length A) by (unfold len; lia).
    replace (Z.to_nat (len A + len ident + snd (lookahead b) - snd (lookahead b)
                       - len A)) with (String.length ident) by (unfold len; lia).
    rewrite substring_suffix, substring_prefix by lia. by rewrite substring_all.
Qed.

(** [lexSqlLeftParenthesis] before blanks and a left parenthesis. *)
Lemma lexSqlLeftParenthesis_accepts (a ws b : string) st p w toks
    (fn : option stateFn) :
  p = len a -> blank ws = true ->
  lexSqlLeftParenthesis fn
      (mkLexer (a +:+ (ws +:+ ("(" +:+ b))) st p w toks) =
    Ok (fn, mkLexer (((a +:+ ws) +:+ "(") +:+ b)
              (len ((a +:+ ws) +:+ "(")) (len ((a +:+ ws) +:+ "(")) 1
              (toks ++ [mkToken tokenTypeSqlLeftParenthesis "("])).
Proof.
  intros Hp Hws. apply returns_eq. unfold lexSqlLeftParenthesis. mstep.
  by_eq ltac:(apply lexSkipWhiteSpaces_run; [exact Hp|exact Hws|reflexivity]).
  mstep. set (A := a +:+ ws).
  by_eq ltac:(apply (next_in A "(" b _ _ _ _ 0 40); [reflexivity|reflexivity|lia|lia]).
  change (negb (40 =? 40)) with false. cbv iota. mstep.
  assert (bounds (mkLexer (A +:+ ("(" +:+ b)) (len A) (len A + (0 + 1)) 1 toks))
    as Hbd.
  { unfold bounds. simpl. rewrite !len_append. unfold len. simpl. lia. }
  by_eq ltac:(apply emit_eq; exact Hbd). mstep. simpl.
  split; [done|]. rewrite string_app_assoc, (len_append A "(").
  change (len "(") with 1. f_equal; try lia. do 2 f_equal.
  replace (Z.to_nat (len A)) with (String.length A) by (unfold len; lia).
  replace (Z.to_nat (len A + (0 + 1) - len A)) with 1%nat by lia.
  rewrite substring_suffix.
  change ("(" +:+ b) with (String "(" b). simpl. by rewrite substring_none.
Qed.

(** *** Accepted and rejected commands *)

Lemma lex_of_run (inp : string) (toks : list token) :
  returns run (mkLexer inp 0 0 0 []) (fun _ l' => tokens l' = toks) ->
  lex inp = Ok toks.
Proof. intros (u & l' & Hrun & <-). unfold lex. by rewrite Hrun. Qed.

Lemma blank_then_parenthesis (ws rest : string) :
  blank ws = true ->
  IsLetter (fst (lookahead (ws +:+ ("(" +:+ rest)))) ||
  IsDigit (fst (lookahead (ws +:+ ("(" +:+ rest)))) = false.
Proof.
  intros H. destruct ws as [|x ws]; [reflexivity|].
  unfold blank in H. rewrite bytes_of_cons in H. simpl in H.
  apply andb_true_iff in H as [Hx _].
  destruct (ascii_space_spec _ Hx) as (_ & H80 & HL & HD).
  rewrite (lookahead_head (String x ws) _ (byte x)) by done.
  simpl. by rewrite HL, HD.
Qed.

Ltac read_word :=
  first
    [ by_eq ltac:(apply (next_in _ _ _ _ _ _ _ 0); [reflexivity|reflexivity|lia|lia])
    | by_eq ltac:(apply (next_in _ _ _ _ _ _ _ 1); [reflexivity|reflexivity|lia|lia])
    | by_eq ltac:(apply (next_in _ _ _ _ _ _ _ 2); [reflexivity|reflexivity|lia|lia])
    | by_eq ltac:(apply (next_in _ _ _ _ _ _ _ 3); [reflexivity|reflexivity|lia|lia]) ].

Ltac dispatch_step :=
  cbv beta;
  lazymatch goal with
  | |- returns next _ _ => read_word
  | |- returns (if _ then _ else _) _ _ => eval_cond
  | |- returns lexCommandS _ _ => unfold lexCommandS
  | |- returns lexCommandST _ _ => unfold lexCommandST
  | |- returns (bind _ _) _ _ => mstep
  end.

Ltac match_word k Hb :=
  by_eq ltac:(apply (lexMatch_word _ _ _ _ _ _ _ _ _ _ k);
              [reflexivity|lia|lia|reflexivity|reflexivity|Hb]).

Ltac from_the_start :=
  lazymatch goal with
  | |- returns _ (mkLexer ?i _ _ _ _) _ => change i with ("" +:+ i)
  end.

Ltac accept_command Hws Hrest :=
  apply (lex_of_command _ [_]); from_the_start;
  unfold lexCommand; mstep;
  by_eq ltac:(apply (lexSkipWhiteSpaces_run "");
              [reflexivity|exact Hws|reflexivity]);
  repeat dispatch_step;
  first [ match_word 1 ltac:(exact Hrest) | match_word 2 ltac:(exact Hrest)
        | match_word 3 ltac:(exact Hrest) | match_word 4 ltac:(exact Hrest) ];
  split; [reflexivity|]; split; [reflexivity|];
  split; [apply bounds_at|reflexivity].

(** X7.  After any ASCII white space, a command keyword other than
    [insert] that is followed by a word boundary (white space or the end of
    the input) is accepted whatever comes after it: the scan hands over the
    token of the keyword, whose value is the keyword, and the end-of-input
    token; nothing of the rest of the input is scanned. *)
Theorem lex_command_accepted (ws kw rest : string) (t : tokenType) :
  blank ws = true -> (kw, t) ∈ commands -> boundary rest = true ->
  lex (ws +:+ kw +:+ rest) = Ok [mkToken t kw; mkToken tokenTypeEOF ""].
Proof.
  intros Hws Hkw Hrest. unfold commands in Hkw.
  repeat (apply elem_of_cons in Hkw as [[= -> ->]|Hkw];
          [accept_command Hws Hrest|]).
  inversion Hkw.
Qed.

(** X8.  After any ASCII white space, an input whose next rune is
    neither white space nor one of the five characters [lexCommand] has a
    case for is rejected after that one rune: the scan hands over the error
    token whose message is built from [Invalid command:] and the bytes of
    that rune, then the end-of-input token.  At the end of the input the
    rune read is 0 and the message carries no bytes. *)
Theorem lex_invalid_command (ws inp : string) (r w : Z) :
  blank ws = true -> lookahead inp = (r, w) ->
  IsSpace r = false -> r ∉ dispatch ->
  lex (ws +:+ inp) =
    Ok [mkToken tokenTypeError
          (Sprintf ("Invalid command:" +:+ String.substring 0 (Z.to_nat w) inp));
        mkToken tokenTypeEOF ""].
Proof.
  intros Hws Hla Hsp Hr.
  pose proof (lookahead_width inp) as Hw. rewrite Hla in Hw. simpl in Hw.
  assert (forall c, c ∈ dispatch -> (r =? c) = false) as Hno.
  { intros c Hc. apply Z.eqb_neq. intros ->. done. }
  apply (lex_of_command _ [_]). from_the_start. unfold lexCommand. mstep.
  by_eq ltac:(apply (lexSkipWhiteSpaces_run "");
              [reflexivity|exact Hws|by rewrite Hla]).
  mstep. set (A := "" +:+ ws).
  by_eq ltac:(apply (next_at A inp); reflexivity).
  rewrite Hla. cbn [fst snd].
  rewrite !Hno by (apply (bool_decide_unpack _); vm_compute; reflexivity).
  mstep. apply current_ret.
  { unfold bounds. simpl. rewrite len_append. unfold len in *. lia. }
  cbn [input start pos width tokens]. unfold errorToken. msteps.
  cbn [input start pos width tokens].
  split; [done|]. split; [|split; [|done]].
  - simpl. do 4 f_equal.
    replace (Z.to_nat (len A)) with (String.length A) by (unfold len; lia).
    replace (Z.to_nat (len A + w - len A)) with (Z.to_nat w) by lia.
    apply substring_suffix.
  - unfold bounds. simpl. rewrite len_append. unfold len in *. lia.
Qed.

(** *** The insert statement *)

(** X9.  The start of an insert statement, with any ASCII white space
    between its words: [insert], [into], an ASCII identifier and a left
    parenthesis give the insert, into, table and left-parenthesis tokens,
    the table token carrying the identifier, and then the end-of-input
    token; what follows the parenthesis is not scanned. *)
Theorem lex_insert_into (ws0 ws1 ws2 table ws3 rest : string) :
  blank ws0 = true ->
  blank ws1 = true -> ws1 <> "" ->
  blank ws2 = true -> ws2 <> "" ->
  identifier table = true ->
  blank ws3 = true ->
  lex (ws0 +:+ "insert" +:+ ws1 +:+ "into" +:+ ws2 +:+ table +:+ ws3 +:+
       "(" +:+ rest) =
    Ok [mkToken tokenTypeSqlInsert "insert"; mkToken tokenTypeSqlInto "into";
        mkToken tokenTypeSqlTable table;
        mkToken tokenTypeSqlLeftParenthesis "("; mkToken tokenTypeEOF ""].
Proof.
  intros Hws0 Hws1 Hne1 Hws2 Hne2 Htable Hws3.
  apply lex_of_run. from_the_start. unfold run. mstep.
  cbn [run_loop call]. mstep. unfold lexCommand. mstep.
  by_eq ltac:(apply (lexSkipWhiteSpaces_run "");
              [reflexivity|exact Hws0|reflexivity]).
  repeat dispatch_step.
  match_word 1 ltac:(by apply blank_boundary).
  cbn [run_loop call]. mstep. unfold lexSqlInsertInto. mstep.
  by_eq ltac:(apply lexSkipWhiteSpaces_run; [reflexivity|exact Hws1|reflexivity]).
  match_word 0 ltac:(by apply blank_boundary).
  cbn [run_loop call]. mstep. unfold lexSqlInsertIntoTable.
  by_eq ltac:(apply lexSqlIdentifier_accepts;
              [reflexivity|exact Hws2|exact Htable
              |by apply blank_then_parenthesis]).
  cbn [run_loop call]. mstep. unfold lexSqlInsertIntoTableLeftParenthesis.
  by_eq ltac:(apply lexSqlLeftParenthesis_accepts; [reflexivity|exact Hws3]).
  cbn [run_loop]. mstep.
  by_eq ltac:(apply emit_eq, bounds_at).
  cbn [input start pos width tokens].
  by rewrite Z.sub_diag, substring_none.
Qed.

(** [lexSqlIdentifier] before blanks and a rune that is not a letter. *)
Lemma lexSqlIdentifier_rejects (a ws b : string) st p w toks
    (t : tokenType) (fn : option stateFn) (r w' : Z) :
  p = len a -> blank ws = true -> lookahead b = (r, w') ->
  IsSpace r = false -> IsLetter r = false ->
  lexSqlIdentifier t fn (mkLexer (a +:+ (ws +:+ b)) st p w toks) =
    Ok (None, mkLexer ((a +:+ ws) +:+ b)
                (len (a +:+ ws) + w') (len (a +:+ ws) + w') w'
                (toks ++ [mkToken tokenTypeError
                            (Sprintf ("identifier must begin with a letter " +:+
                                      String.substring 0 (Z.to_nat w') b))])).
Proof.
  intros Hp Hws Hla Hsp HL.
  pose proof (lookahead_width b) as Hw. rewrite Hla in Hw. simpl in Hw.
  apply returns_eq. unfold lexSqlIdentifier. mstep.
  by_eq ltac:(apply lexSkipWhiteSpaces_run; [exact Hp|exact Hws|by rewrite Hla]).
  mstep. set (A := a +:+ ws).
  by_eq ltac:(apply (next_at A b); reflexivity).
  rewrite Hla. cbn [fst snd]. rewrite HL. cbn [negb]. mstep.
  apply current_ret.
  { unfold bounds. simpl. rewrite len_append. unfold len in *. lia. }
  cbn [input start pos width tokens]. unfold errorToken. msteps.
  cbn [input start pos width tokens]. split; [done|].
  replace (Z.to_nat (len A)) with (String.length A) by (unfold len; lia).
  replace (Z.to_nat (len A + w' - len A)) with (Z.to_nat w') by lia.
  by rewrite substring_suffix.
Qed.


(** X10.  An insert statement whose table name does not begin with a
    letter: after [insert] and [into] the scan hands over the error token
    whose message is built from [identifier must begin with a letter ] and
    the bytes of the rune found (none at the end of the input), then the
    end-of-input token. *)
Theorem lex_insert_into_needs_letter (ws0 ws1 ws2 inp : string) (r w : Z) :
  blank ws0 = true ->
  blank ws1 = true -> ws1 <> "" ->
  blank ws2 = true -> ws2 <> "" ->
  lookahead inp = (r, w) -> IsSpace r = false -> IsLetter r = false ->
  lex (ws0 +:+ "insert" +:+ ws1 +:+ "into" +:+ ws2 +:+ inp) =
    Ok [mkToken tokenTypeSqlInsert "insert"; mkToken tokenTypeSqlInto "into";
        mkToken tokenTypeError
          (Sprintf ("identifier must begin with a letter " +:+
                    String.substring 0 (Z.to_nat w) inp));
        mkToken tokenTypeEOF ""].
Proof.
  intros Hws0 Hws1 Hne1 Hws2 Hne2 Hla Hsp HL.
  pose proof (lookahead_width inp) as Hw. rewrite Hla in Hw. simpl in Hw.
  apply lex_of_run. from_the_start. unfold run. mstep.
  cbn [run_loop call]. mstep. unfold lexCommand. mstep.
  by_eq ltac:(apply (lexSkipWhiteSpaces_run "");
              [reflexivity|exact Hws0|reflexivity]).
  repeat dispatch_step.
  match_word 1 ltac:(by apply blank_boundary).
  cbn [run_loop call]. mstep. unfold lexSqlInsertInto. mstep.
  by_eq ltac:(apply lexSkipWhiteSpaces_run; [reflexivity|exact Hws1|reflexivity]).
  match_word 0 ltac:(by apply blank_boundary).
  cbn [run_loop call]. mstep. unfold lexSqlInsertIntoTable.
  by_eq ltac:(apply (lexSqlIdentifier_rejects _ _ _ _ _ _ _ _ _ r w);
              [reflexivity|exact Hws2|exact Hla|exact Hsp|exact HL]).
  cbn [run_loop]. mstep.
  by_eq ltac:(apply emit_eq).
  { unfold bounds. simpl. rewrite (len_append _ inp). unfold len in *. lia. }
  cbn [input start pos width tokens].
  by rewrite Z.sub_diag, substring_none.
Qed.


(** *** Printing kinds and tokens *)

(** X12.  [String] on kinds: the declared kinds without a case are the
    value, quote, string and white space kinds, which all print as
    [not implemented]; on the other kinds the printed name determines the
    kind. *)
Theorem tokenType_String_names :
  (forall t, tokenType_String t = "not implemented" <-> t ∈ unnamed_kinds) /\
  (forall t1 t2,
     tokenType_String t1 = tokenType_String t2 ->
     t1 ∉ unnamed_kinds -> t1 = t2).
Proof.
  assert (forall t, tokenType_String t = "not implemented" <-> t ∈ unnamed_kinds)
    as Hun.
  { intros t. split.
    - intros H. apply (bool_decide_unpack _). by destruct t.
    - intros H. unfold unnamed_kinds in H.
      repeat (apply elem_of_cons in H as [->|H]; [reflexivity|]). inversion H. }
  split; [exact Hun|]. intros t1 t2 Heq Hnamed.
  assert (tokenType_String t1 <> "not implemented") as Hn1 by (by rewrite Hun).
  destruct t1; try (exfalso; apply Hn1; reflexivity);
    destruct t2; try reflexivity; discriminate Heq.
Qed.

(** Every scan ends with the end-of-input token, after tokens of other
    kinds. *)
Lemma lex_ends_with_eof (inp : string) :
  exists body v,
    lex inp = Ok (body ++ [mkToken tokenTypeEOF v]) /\
    Forall (fun t => typ t <> tokenTypeEOF) body.
Proof.
  assert (bounds (mkLexer inp 0 0 0 [])) as Hb.
  { unfold bounds, len. simpl. lia. }
  assert (returns run (mkLexer inp 0 0 0 []) (fun _ l' =>
    exists body v, tokens l' = body ++ [mkToken tokenTypeEOF v] /\ body_ok body))
    as (u & l' & Hrun & body & v & Htoks & Hok & _).
  { unfold run. mstep. eapply returns_weaken.
    - apply (run_loop_spec 4 (Some LexCommand)); [done|simpl; lia].
    - intros ? l1 (Hb1 & body & Ht & Hok & _). cbv beta.
      eapply returns_weaken; [apply emit_spec, Hb1|].
      intros ? l2 (v & _ & Ht2 & _). exists body, v. cbv beta in Ht2.
      split; [|done]. rewrite Ht2, Ht. done. }
  exists body, v. unfold lex. rewrite Hrun, Htoks. done.
Qed.

(** X13.  Printing the tokens of a scan: every kind handed over has a
    name of its own, and the tokens print as their values, in order,
    followed by [EOF] for the end-of-input token, whatever value that token
    carries. *)
Theorem lex_prints (inp : string) :
  exists body v,
    lex inp = Ok (body ++ [mkToken tokenTypeEOF v]) /\
    token_String <$> (body ++ [mkToken tokenTypeEOF v]) = (val <$> body) ++ ["EOF"] /\
    Forall (fun tok => tokenType_String (typ tok) <> "not implemented")
      (body ++ [mkToken tokenTypeEOF v]).
Proof.
  destruct (lex_ends_with_eof inp) as (body & v & Hlex & Hbody).
  exists body, v. split; [done|]. split.
  - rewrite fmap_app. f_equal. apply list_fmap_ext. intros i tok Hi.
    rewrite Forall_forall in Hbody. unfold token_String.
    rewrite bool_decide_eq_false_2; [done|].
    apply Hbody. eapply list_elem_of_lookup_2. exact Hi.
  - eapply Forall_impl; [exact (lex_scanned _ _ Hlex)|].
    intros tok [H|[H _]]; [by rewrite H|].
    unfold scanned_kinds in H.
    repeat (apply elem_of_cons in H as [->|H]; [discriminate|]). inversion H.
Qed.

(** *** The cursor *)

Lemma decode_width_le4 (s : string) : snd (DecodeRuneInString s) <= 4.
Proof.
  unfold DecodeRuneInString.
  repeat (match goal with
          | |- context [if ?b then _ else _] => destruct b
          | |- context [match ?x with EmptyString => _ | String _ _ => _ end] =>
              destruct x
          end; cbn [snd]); lia.
Qed.

(** X14.  Within the bounds of the input [next] and [peek] return, and
    return the same rune; [next] moves the cursor by the width of that rune
    and [peek] leaves it in place, both recording the width.  At the end of
    the input the rune is 0 and the width 0; before it the width is between
    one and four bytes and the cursor stays within the input. *)
Theorem next_peek_agree (l : lexer) :
  bounds l ->
  exists r w,
    next l = Ok (r, mkLexer (input l) (start l) (pos l + w) w (tokens l)) /\
    peek l = Ok (r, mkLexer (input l) (start l) (pos l) w (tokens l)) /\
    ((pos l = len (input l) /\ r = 0 /\ w = 0) \/
     (pos l < len (input l) /\ 1 <= w <= 4 /\ pos l + w <= len (input l))).
Proof.
  intros Hb. destruct l as [inp st p w0 toks]. unfold bounds in Hb. simpl in *.
  unfold peek, backup, next, bind, get, set_width, set_pos, modify, ret, lift.
  simpl. destruct (Z.leb_spec (len inp) p) as [Hle|Hlt].
  - exists 0, 0. simpl. rewrite Z.add_0_r, Z.sub_0_r.
    split; [done|]. split; [done|]. left. lia.
  - rewrite slice_ok by lia. set (rest := String.substring _ _ _).
    assert (rest <> "") as Hne.
    { apply substring_nonempty; unfold len in *; lia. }
    assert (len rest = len inp - p) as Hlen.
    { unfold rest, len in *. rewrite length_substring. lia. }
    pose proof (decode_width rest Hne) as Hw.
    pose proof (decode_width_le4 rest) as Hw4.
    destruct (DecodeRuneInString rest) as [r w]. simpl in *.
    exists r, w. split; [done|].
    replace (p + w - w) with p by lia. split; [done|]. right. lia.
Qed.

End Scanner.

Lemma keyword_needs_boundary_witness :
  exists msg,
    lex Sprintf_plain no_table no_table no_table "selectx" =
      Ok [mkToken tokenTypeError msg; mkToken tokenTypeEOF ""].
Proof.
  change "selectx" with ("select" +:+ "x").
  apply (keyword_needs_boundary Sprintf_plain no_table no_table no_table
           "select" "x").
  - apply (bool_decide_unpack _). vm_compute. reflexivity.
  - vm_compute. reflexivity.
Defined.

(** C4 as stated fails: the consumer receives two tokens, not five. *)
Lemma lex_select_stops_after_keyword :
  exists toks,
    lex Sprintf_plain no_table no_table no_table "select * from t1" = Ok toks /\
    typ <$> toks = [tokenTypeSqlSelect; tokenTypeEOF] /\
    typ <$> toks <>
      [tokenTypeSqlSelect; tokenTypeSqlStar; tokenTypeSqlFrom;
       tokenTypeSqlId; tokenTypeEOF].
Proof.
  eexists. split; [vm_compute; reflexivity|]. split; [reflexivity|discriminate].
Qed.

(** C7 as stated fails: on a failed scan the consumer receives an error
    token and an end-of-input token, two terminal signals. *)
Lemma lex_error_then_eof :
  lex Sprintf_plain no_table no_table no_table "x" =
    Ok [mkToken tokenTypeError "Invalid command:x"; mkToken tokenTypeEOF ""] /\
  terminal_signals
    [mkToken tokenTypeError "Invalid command:x"; mkToken tokenTypeEOF ""] = 2%nat.
Proof. split; vm_compute; reflexivity. Qed.

Lemma lex_command_accepted_witness :
  lex Sprintf_plain no_table no_table no_table
      ("  " +:+ "subscribe" +:+ " * from stocks") =
    Ok [mkToken tokenTypeSqlSubscribe "subscribe"; mkToken tokenTypeEOF ""].
Proof.
  apply (lex_command_accepted Sprintf_plain no_table no_table no_table
           "  " "subscribe" " * from stocks" tokenTypeSqlSubscribe).
  - reflexivity.
  - apply (bool_decide_unpack _). vm_compute. reflexivity.
  - reflexivity.
Defined.

Lemma lex_invalid_command_witness :
  lex Sprintf_plain no_table no_table no_table (" " +:+ "exit now") =
    Ok [mkToken tokenTypeError "Invalid command:e"; mkToken tokenTypeEOF ""].
Proof.
  apply (lex_invalid_command Sprintf_plain no_table no_table no_table
           " " "exit now" 101 1).
  - reflexivity.
  - reflexivity.
  - reflexivity.
  - apply (bool_decide_unpack _). vm_compute. reflexivity.
Defined.

Lemma lex_insert_into_witness :
  lex Sprintf_plain no_table no_table no_table
      ("" +:+ "insert" +:+ " " +:+ "into" +:+ "  " +:+ "stocks2" +:+ "" +:+
       "(" +:+ "ticker, bid) values (IBM, 12)") =
    Ok [mkToken tokenTypeSqlInsert "insert"; mkToken tokenTypeSqlInto "into";
        mkToken tokenTypeSqlTable "stocks2";
        mkToken tokenTypeSqlLeftParenthesis "("; mkToken tokenTypeEOF ""].
Proof.
  apply (lex_insert_into Sprintf_plain no_table no_table no_table
           "" " " "  " "stocks2" "" "ticker, bid) values (IBM, 12)");
    try reflexivity; discriminate.
Defined.

Lemma lex_insert_into_needs_letter_witness :
  lex Sprintf_plain no_table no_table no_table
      ("" +:+ "insert" +:+ " " +:+ "into" +:+ " " +:+ "9lives (") =
    Ok [mkToken tokenTypeSqlInsert "insert"; mkToken tokenTypeSqlInto "into";
        mkToken tokenTypeError "identifier must begin with a letter 9";
        mkToken tokenTypeEOF ""].
Proof.
  apply (lex_insert_into_needs_letter Sprintf_plain no_table no_table no_table
           "" " " " " "9lives (" 57 1);
    try reflexivity; discriminate.
Defined.


Lemma next_peek_agree_witness :
  exists r w,
    next (mkLexer "help" 0 1 1 []) = Ok (r, mkLexer "help" 0 (1 + w) w []) /\
    peek (mkLexer "help" 0 1 1 []) = Ok (r, mkLexer "help" 0 1 w []) /\
    ((1 = len "help" /\ r = 0 /\ w = 0) \/
     (1 < len "help" /\ 1 <= w <= 4 /\ 1 + w <= len "help")).
Proof.
  apply (next_peek_agree (mkLexer "help" 0 1 1 [])).
  unfold bounds. vm_compute. intuition discriminate.
Defined.

End Lexer.

(** ** server/parser_mysql.go *)

Module Parser.

(** Modelled from the spec: the token kinds of the server package.  Its
    lexer is not among the sources; parser_mysql.go names the kinds below,
    and [tokenTypeOther] stands for the remaining kinds of section 3. *)
Inductive tokenType :=
  | tokenTypeError
  | tokenTypeEOF
  | tokenTypeSqlConnect
  | tokenTypeSqlDisconnect
  | tokenTypeSqlSubscribe
  | tokenTypeSqlUnsubscribe
  | tokenTypeSqlValue
  | tokenTypeOther (kind : nat).

#[global] Instance tokenType_eq_dec : EqDecision tokenType.
Proof. solve_decision. Defined.

Record token := mkToken { typ : tokenType; val : string }.

(** [type mysqlConnectRequest struct { cmdRequest; connectionAddress string }];
    the embedded [cmdRequest] is declared outside the file and carries
    nothing that the file reads or writes. *)
Record mysqlConnectRequest := mkConnect { connectionAddress : string }.

(** The [request] interface: the variants parser_mysql.go builds, and the
    error value of [parseError]. *)
Inductive request :=
  | errorRequest (message : string)
  | ofConnect (req : mysqlConnectRequest)
  | mysqlDisconnectRequest
  | mysqlSubscribeRequest
  | mysqlUnsubscribeRequest.

(** The parser and its token producer: the tokens still to be pulled. *)
Record parser := mkParser { tokens : list token }.

(** For examples: the names that lexer.go's [String] gives the kinds it
    shares with the server package. *)
Definition String_names (t : tokenType) : string :=
  match t with
  | tokenTypeError => "tokenTypeError"
  | tokenTypeEOF => "tokenTypeEOF"
  | _ => "not implemented"
  end.

Section Productions.

(** [tokenType.String] of the server package and the message of a failed
    end-of-input check are not in the sources. *)
Variable String : tokenType -> string.
Variable trailing : token -> string.

(** Modelled from the spec: [this.tokens.Produce()], "the parser requests
    one token at a time"; once the tokens are used up the producer keeps
    answering with the end-of-input token that ended them. *)
Definition Produce : M parser token := fun this =>
  match tokens this with
  | [] => Ok (mkToken tokenTypeEOF "", this)
  | tok :: rest => Ok (tok, mkParser rest)
  end.

(** Modelled from the spec: [this.parseError(msg)], "a parse error carries
    a human-readable message; it is a value, not a thrown fault". *)
Definition parseError (message : string) : M parser request :=
  ret (errorRequest message).

(** Modelled from the spec: [this.parseEOF(req)], the shared helper that
    ends a production by "pulling one more token and failing unless it is
    the end-of-input token". *)
Definition parseEOF (req : request) : M parser request :=
  tok <- Produce ;;
  if bool_decide (typ tok = tokenTypeEOF) then ret req
  else parseError (trailing tok).

(** [func (this *parser) parseConnectionAddress(connectionAddress *string) request].
    The string behind the pointer is passed in and its final value is
    returned beside the result; a [nil] result is [None]. *)
Definition parseConnectionAddress (connectionAddress : string)
    : M parser (option request * string) :=
  tok <- Produce ;;
  if bool_decide (typ tok <> tokenTypeSqlValue) then
    err <- parseError ("expected connection address, but got: " +:+ String (typ tok)) ;;
    ret (Some err, connectionAddress)
  else
    ret (None, val tok).

(** [func (this *parser) parseMysqlConnect() request] *)
Definition parseMysqlConnect : M parser request :=
  let req := mkConnect "" in
  r <- parseConnectionAddress (connectionAddress req) ;;
  let req := mkConnect (snd r) in
  match fst r with
  | Some errReq => ret errReq
  | None => parseEOF (ofConnect req)
  end.

(** [func (this *parser) parseMysqlDisconnect() request] *)
Definition parseMysqlDisconnect : M parser request :=
  parseEOF mysqlDisconnectRequest.

(** [func (this *parser) parseMysqlSubscribe() request] *)
Definition parseMysqlSubscribe : M parser request :=
  parseEOF mysqlSubscribeRequest.

(** [func (this *parser) parseMysqlUnsubscribe() request] *)
Definition parseMysqlUnsubscribe : M parser request :=
  parseEOF mysqlUnsubscribeRequest.

(** [func (this *parser) parseSqlMysql() request] *)
Definition parseSqlMysql : M parser request :=
  tok <- Produce ;;
  match typ tok with
  | tokenTypeSqlConnect => parseMysqlConnect
  | tokenTypeSqlDisconnect => parseMysqlDisconnect
  | tokenTypeSqlSubscribe => parseMysqlSubscribe
  | tokenTypeSqlUnsubscribe => parseMysqlUnsubscribe
  | _ => parseError "invalid mysql request"
  end.

(** C8.  After the connect keyword, one literal-value token and the
    end-of-input token give the connect request whose address is the text
    of the literal, the end-of-input check having consumed its token; any
    other token in the place of the address (the end-of-input token of a
    bare [mysql connect] among them) gives the error value whose message
    names the kind of that token: the parser returns, and what it returns
    is not a connect request. *)
Theorem parseMysqlConnect_spec :
  (forall (kw address eof : string) (rest : list token),
     parseSqlMysql
       (mkParser (mkToken tokenTypeSqlConnect kw
                    :: mkToken tokenTypeSqlValue address
                    :: mkToken tokenTypeEOF eof :: rest)) =
       Ok (ofConnect (mkConnect address), mkParser rest)) /\
  (forall (kw : string) (tok : token) (rest : list token),
     typ tok <> tokenTypeSqlValue ->
     parseSqlMysql (mkParser (mkToken tokenTypeSqlConnect kw :: tok :: rest)) =
       Ok (errorRequest
             ("expected connection address, but got: " +:+ String (typ tok)),
           mkParser rest)) /\
  (forall (kw : string),
     parseSqlMysql (mkParser [mkToken tokenTypeSqlConnect kw]) =
       Ok (errorRequest
             ("expected connection address, but got: " +:+ String tokenTypeEOF),
           mkParser [])).
Proof.
  split; [|split].
  - intros kw address eof rest. reflexivity.
  - intros kw tok rest Htok.
    unfold parseSqlMysql, bind, Produce. simpl.
    unfold parseMysqlConnect, parseConnectionAddress, bind, Produce. simpl.
    rewrite bool_decide_eq_true_2 by done. reflexivity.
  - intros kw. reflexivity.
Qed.

(** [parseEOF] always returns: the request it was given, or an error
    value. *)
Lemma parseEOF_result (req : request) (this : parser) :
  exists r this', parseEOF req this = Ok (r, this') /\
    (r = req \/ exists message, r = errorRequest message).
Proof.
  unfold parseEOF, bind, Produce, parseError, ret.
  destruct (tokens this) as [|tok rest]; simpl.
  - eexists _, _. split; [reflexivity|]. by left.
  - case_bool_decide; eexists _, _; (split; [reflexivity|]); [by left|right; eauto].
Qed.

(** X15.  The dispatch of [parseSqlMysql], over the token producer,
    [parseEOF] and [parseError] as the specification describes them: the
    parser always returns; a request that is not an error value tells the
    keyword it was built for (a connect request only after the connect
    keyword, and so on for disconnect, subscribe and unsubscribe); and a
    first token of any other kind gives the error value
    [invalid mysql request], that one token consumed. *)
Theorem parseSqlMysql_dispatch :
  (forall this, exists r this',
     parseSqlMysql this = Ok (r, this') /\
     match r with
     | errorRequest _ => True
     | ofConnect _ =>
         exists tok, head (tokens this) = Some tok /\ typ tok = tokenTypeSqlConnect
     | mysqlDisconnectRequest =>
         exists tok, head (tokens this) = Some tok /\ typ tok = tokenTypeSqlDisconnect
     | mysqlSubscribeRequest =>
         exists tok, head (tokens this) = Some tok /\ typ tok = tokenTypeSqlSubscribe
     | mysqlUnsubscribeRequest =>
         exists tok, head (tokens this) = Some tok /\ typ tok = tokenTypeSqlUnsubscribe
     end) /\
  (forall tok rest,
     typ tok ∉ [tokenTypeSqlConnect; tokenTypeSqlDisconnect;
                tokenTypeSqlSubscribe; tokenTypeSqlUnsubscribe] ->
     parseSqlMysql (mkParser (tok :: rest)) =
       Ok (errorRequest "invalid mysql request", mkParser rest)).
Proof.
  split.
  - intros [[|tok rest]].
    { eexists _, _. split; [reflexivity|done]. }
    unfold parseSqlMysql, bind, Produce. simpl.
    destruct (typ tok) eqn:Htyp;
      try (eexists _, _; split; [reflexivity|done]).
    + unfold parseMysqlConnect, parseConnectionAddress, bind, Produce, parseError, ret.
      simpl. destruct rest as [|tok2 rest]; simpl.
      * eexists _, _. split; [reflexivity|done].
      * case_bool_decide; simpl; [eexists _, _; split; [reflexivity|done]|].
        destruct (parseEOF_result (ofConnect (mkConnect (val tok2))) (mkParser rest))
          as (r & this' & -> & [->|[m ->]]);
          eexists _, _; (split; [reflexivity|]); [|done].
        exists tok. done.
    + destruct (parseEOF_result mysqlDisconnectRequest (mkParser rest))
        as (r & this' & Hr & [->|[m ->]]);
        unfold parseMysqlDisconnect; rewrite Hr;
        eexists _, _; (split; [reflexivity|]); [|done].
      exists tok. done.
    + destruct (parseEOF_result mysqlSubscribeRequest (mkParser rest))
        as (r & this' & Hr & [->|[m ->]]);
        unfold parseMysqlSubscribe; rewrite Hr;
        eexists _, _; (split; [reflexivity|]); [|done].
      exists tok. done.
    + destruct (parseEOF_result mysqlUnsubscribeRequest (mkParser rest))
        as (r & this' & Hr & [->|[m ->]]);
        unfold parseMysqlUnsubscribe; rewrite Hr;
        eexists _, _; (split; [reflexivity|]); [|done].
      exists tok. done.
  - intros tok rest Hkind. unfold parseSqlMysql, bind, Produce. simpl.
    destruct (typ tok); try reflexivity; exfalso; apply Hkind;
      apply (bool_decide_unpack _); vm_compute; reflexivity.
Qed.

End Productions.

Lemma parseMysqlConnect_spec_witness :
  parseSqlMysql String_names val
    (mkParser [mkToken tokenTypeSqlConnect "connect";
               mkToken tokenTypeSqlValue "1.2.3.4:3306";
               mkToken tokenTypeEOF ""]) =
    Ok (ofConnect (mkConnect "1.2.3.4:3306"), mkParser []) /\
  parseSqlMysql String_names val
    (mkParser [mkToken tokenTypeSqlConnect "connect"; mkToken tokenTypeEOF ""]) =
    Ok (errorRequest "expected connection address, but got: tokenTypeEOF",
        mkParser []).
Proof.
  destruct (parseMysqlConnect_spec String_names val) as (Hok & Herr & _).
  split.
  - apply (Hok "connect" "1.2.3.4:3306" "" []).
  - apply (Herr "connect" (mkToken tokenTypeEOF "") []). discriminate.
Defined.

End Parser.

(** ** client/client.go *)

Module Client.

(** The response header of the wire protocol; [Execute] reads its
    [RequestId] only. *)
Record NetworkHeader := mkHeader { RequestId : Z }.

(** For examples: a connection that remembers the id of the last request
    written and answers every read with a header carrying that id. *)
Definition echo_write (id : Z) (message : string) (last : Z)
    : option string * Z := (None, id).

Definition echo_read (last : Z)
    : (option NetworkHeader * string * option string) * Z :=
  (Some (mkHeader last), "{}", None, last).

(** For examples: a connection that refuses every write. *)
Definition broken_write (id : Z) (message : string) (u : unit)
    : option string * unit := (Some "broken pipe", tt).

(** For examples: a connection that answers with the id of another
    request. *)
Definition stale_read (last : Z)
    : (option NetworkHeader * string * option string) * Z :=
  (Some (mkHeader (last - 1)), "{}", None, last).

(** For examples: a connection that accepts the request and then fails
    to deliver the response. *)
Definition lost_response
    : unit -> (option NetworkHeader * string * option string) * unit :=
  fun _ => (None, "", Some "EOF", tt).

Section Connection.

(** [NetMessageReaderWriter], the framing layer under the client, is not
    among the sources: its state and its three methods are parameters.  An
    [error] is its message, [nil] is [None]; a [[]byte] is the string of
    its bytes. *)
Variable rwT : Type.
Variable Valid : rwT -> bool.
Variable WriteHeaderAndMessage : Z -> string -> rwT -> option string * rwT.
Variable ReadMessage : rwT -> (option NetworkHeader * string * option string) * rwT.

(** [type client struct] *)
Record client := mkClient {
  rw : rwT;
  requestId : Z;
  errorString : string;
  rawjson : string
}.

Definition set_rw (v : rwT) : M client unit :=
  modify (fun c => mkClient v (requestId c) (errorString c) (rawjson c)).
Definition set_requestId (v : Z) : M client unit :=
  modify (fun c => mkClient (rw c) v (errorString c) (rawjson c)).
Definition set_errorString (v : string) : M client unit :=
  modify (fun c => mkClient (rw c) (requestId c) v (rawjson c)).
Definition set_rawjson (v : string) : M client unit :=
  modify (fun c => mkClient (rw c) (requestId c) (errorString c) v).

(** [func (this *client) resetError()] *)
Definition resetError : M client unit := set_errorString "".

(** [func (this *client) reset()] *)
Definition reset : M client unit := resetError ;;; set_rawjson "".

(** [func (this *client) setError(err error)] *)
Definition setError (err : string) : M client unit := set_errorString err.

(** [func (this *client) write(message string) bool]; [requestId] is a
    [uint32] and wraps. *)
Definition write (message : string) : M client bool :=
  this <- get ;;
  set_requestId ((requestId this + 1) mod 2 ^ 32) ;;;
  resetError ;;;
  this <- get ;;
  if Valid (rw this) then
    let '(err, rw') := WriteHeaderAndMessage (requestId this) message (rw this) in
    set_rw rw' ;;;
    match err with
    | None => ret true
    | Some e => setError e ;;; ret false
    end
  else
    set_errorString "Not connected" ;;;
    ret false.

(** [func (this *client) read()], returning the header pointer, the bytes and the flag *)
Definition read : M client (option NetworkHeader * string * bool) :=
  reset ;;;
  this <- get ;;
  if Valid (rw this) then
    let '(header, bytes, err, rw') := ReadMessage (rw this) in
    set_rw rw' ;;;
    match err with
    | None => ret (header, bytes, true)
    | Some e => setError e ;;; ret (None, "", false)
    end
  else
    set_errorString "Not connected" ;;;
    ret (None, "", false).

(** [header.RequestId]: reading a field through a [nil] pointer panics. *)
Definition field_RequestId (header : option NetworkHeader) : M client Z :=
  match header with
  | Some h => ret (RequestId h)
  | None => panic "nil pointer dereference"
  end.

(** [func (this *client) Execute(command string) bool] *)
Definition Execute (command : string) : M client bool :=
  ok <- write command ;;
  r <- (if ok then
          r <- read ;;
          let '(header, bytes, ok) := r in
          id <- field_RequestId header ;;
          this <- get ;;
          if negb (id =? requestId this) then
            set_errorString "invalid requestId" ;;;
            ret (bytes, false)
          else ret (bytes, ok)
        else ret ("", ok)) ;;
  let '(bytes, ok) := r in
  (if ok then set_rawjson bytes else ret tt) ;;;
  ret ok.

(** [rw.Close()] and [rw.Set(conn, size)] of the framing layer, and
    [net.Dial("tcp", address)] with its connection or the message of its
    error, are parameters as well. *)
Variable Close : rwT -> rwT.
Variable connT : Type.
Variable Set_ : connT -> Z -> rwT -> rwT.
Variable Dial : string -> connT + string.

(** [var CLIENT_DEFAULT_BUFFER_SIZE int = 2048] *)
Definition CLIENT_DEFAULT_BUFFER_SIZE : Z := 2048.

(** [func (this *client) Disconnect()] *)
Definition Disconnect : M client unit :=
  write "close" ;;;
  reset ;;;
  this <- get ;;
  set_rw (Close (rw this)).

(** [func (this *client) Connect(address string) bool] *)
Definition Connect (address : string) : M client bool :=
  Disconnect ;;;
  match Dial address with
  | inr err =>
      set_errorString err ;;;
      ret false
  | inl conn =>
      this <- get ;;
      set_rw (Set_ conn CLIENT_DEFAULT_BUFFER_SIZE (rw this)) ;;;
      ret true
  end.

(** [func (this *client) Ok() bool] *)
Definition Ok_ (this : client) : bool :=
  Nat.eqb (String.length (errorString this)) 0.

(** [func (this *client) Failed() bool] *)
Definition Failed (this : client) : bool := negb (Ok_ this).

(** [func (this *client) ErrorString() string] *)
Definition ErrorString (this : client) : string := errorString this.

(** [func (this *client) JSON() string] *)
Definition JSON (this : client) : string := rawjson this.

(** The request id [write] sends: the next [uint32]. *)
Definition next_id (this : client) : Z := (requestId this + 1) mod 2 ^ 32.

(** C10 fails on the code.  When the request is written and the read
    then fails (the connection is no longer valid, or [ReadMessage]
    reports an error), [read] returns a [nil] header and [Execute] reads
    [header.RequestId] before it looks at the flag: the call panics
    instead of returning [false]. *)
Theorem Execute_faults_when_read_fails (this : client) (command : string)
    (rw1 : rwT) :
  Valid (rw this) = true ->
  WriteHeaderAndMessage ((requestId this + 1) mod 2 ^ 32) command (rw this)
    = (None, rw1) ->
  (Valid rw1 = false \/
   exists header bytes e rw2, ReadMessage rw1 = (header, bytes, Some e, rw2)) ->
  Execute command this = Panic "nil pointer dereference".
Proof.
  intros Hvalid Hwrite Hread. destruct this as [rw0 id err json]. simpl in *.
  cbv [Execute write read reset resetError setError set_requestId
       set_errorString set_rawjson set_rw modify get ret bind
       rw requestId errorString rawjson].
  rewrite Hvalid, Hwrite.
  destruct Hread as [Hinvalid|(header & bytes & e & rw2 & Hrd)].
  - rewrite Hinvalid. reflexivity.
  - destruct (Valid rw1); [|reflexivity]. rewrite Hrd. reflexivity.
Qed.

Ltac run_client :=
  cbv [Connect Disconnect Execute write read reset resetError setError
       field_RequestId set_requestId set_errorString set_rawjson set_rw
       modify get ret bind panic rw requestId errorString rawjson next_id
       Ok_ Failed ErrorString JSON].

(** X16.  [write] always returns.  It advances the request id to the
    next [uint32] (after 4294967295 comes 0), keeps the last JSON, and
    returns [true] only with the error cleared and the connection valid. *)
Theorem write_spec (this : client) (message : string) :
  exists b this',
    write message this = Ok (b, this') /\
    requestId this' = next_id this /\
    0 <= requestId this' < 2 ^ 32 /\
    (requestId this = 2 ^ 32 - 1 -> requestId this' = 0) /\
    JSON this' = JSON this /\
    (b = true -> Ok_ this' = true /\ Valid (rw this) = true).
Proof.
  destruct this as [rw0 id err json].
  assert (0 <= (id + 1) mod 2 ^ 32 < 2 ^ 32) as Hid by (apply Z.mod_pos_bound; lia).
  assert (id = 2 ^ 32 - 1 -> (id + 1) mod 2 ^ 32 = 0) as Hwrap.
  { intros ->. reflexivity. }
  run_client. destruct (Valid rw0) eqn:Hv.
  - destruct (WriteHeaderAndMessage _ _ _) as [[e|] rw1].
    + eexists _, _. split; [reflexivity|]. simpl. repeat split; try done; lia.
    + eexists _, _. split; [reflexivity|]. simpl. repeat split; try done; lia.
  - eexists _, _. split; [reflexivity|]. simpl. repeat split; try done; lia.
Qed.

(** X17.  A request that cannot be sent: when the client is not
    connected, or when the framing layer reports an error on the write,
    [Execute] returns [false] without reading; the error is
    [Not connected], respectively the error of the write, the request id
    has advanced all the same, and the JSON of the last response is still
    there. *)
Theorem Execute_not_sent (this : client) (command : string) :
  (Valid (rw this) = false ->
   Execute command this =
     Ok (false, mkClient (rw this) (next_id this) "Not connected" (rawjson this))) /\
  (forall e rw1,
     Valid (rw this) = true ->
     WriteHeaderAndMessage (next_id this) command (rw this) = (Some e, rw1) ->
     Execute command this =
       Ok (false, mkClient rw1 (next_id this) e (rawjson this))).
Proof.
  destruct this as [rw0 id err json]. split.
  - run_client. intros ->. reflexivity.
  - run_client. intros e rw1 -> ->. reflexivity.
Qed.

(** X18.  A request that is answered: when the write succeeds and the
    read delivers a header with the request id just sent, [Execute] returns
    [true], the JSON is the payload of the response and no error is left. *)
Theorem Execute_answered (this : client) (command : string)
    (rw1 rw2 : rwT) (header : NetworkHeader) (bytes : string) :
  Valid (rw this) = true ->
  WriteHeaderAndMessage (next_id this) command (rw this) = (None, rw1) ->
  Valid rw1 = true ->
  ReadMessage rw1 = (Some header, bytes, None, rw2) ->
  RequestId header = next_id this ->
  Execute command this = Ok (true, mkClient rw2 (next_id this) "" bytes).
Proof.
  destruct this as [rw0 id err json]. run_client.
  intros -> -> -> -> ->. by rewrite Z.eqb_refl.
Qed.

(** X19.  A response to another request: when the header that is read
    carries a different request id, [Execute] returns [false] with the
    error [invalid requestId]; the payload is dropped, and the JSON of the
    last response is gone as well, [read] having cleared it. *)
Theorem Execute_wrong_requestId (this : client) (command : string)
    (rw1 rw2 : rwT) (header : NetworkHeader) (bytes : string) :
  Valid (rw this) = true ->
  WriteHeaderAndMessage (next_id this) command (rw this) = (None, rw1) ->
  Valid rw1 = true ->
  ReadMessage rw1 = (Some header, bytes, None, rw2) ->
  RequestId header <> next_id this ->
  Execute command this =
    Ok (false, mkClient rw2 (next_id this) "invalid requestId" "").
Proof.
  destruct this as [rw0 id err json]. run_client.
  intros -> -> -> -> Hid. by rewrite (proj2 (Z.eqb_neq _ _) Hid).
Qed.

(** X20.  Whenever [Execute] returns [true] the client is in order:
    [Ok] holds, [Failed] does not, the error string is empty, the request
    id is the one that was sent, and the connection was valid when the
    request was written. *)
Theorem Execute_true_is_ok (this this' : client) (command : string) :
  Execute command this = Ok (true, this') ->
  Ok_ this' = true /\ Failed this' = false /\ ErrorString this' = "" /\
  requestId this' = next_id this /\ Valid (rw this) = true.
Proof.
  destruct this as [rw0 id err json]. run_client.
  destruct (Valid rw0); [|discriminate].
  destruct (WriteHeaderAndMessage _ _ _) as [[e|] rw1]; [discriminate|].
  destruct (Valid rw1); [|discriminate].
  destruct (ReadMessage rw1) as [[[[h|] bytes] [e|]] rw2]; try discriminate.
  destruct (RequestId h =? _); [|discriminate].
  intros [= <-]. done.
Qed.

Lemma Disconnect_returns (this : client) :
  exists rw1, Disconnect this = Ok (tt, mkClient (Close rw1) (next_id this) "" "").
Proof.
  destruct this as [rw0 id err json]. run_client.
  destruct (Valid rw0); [|eexists; done].
  destruct (WriteHeaderAndMessage _ _ _) as [[e|] rw1]; eexists; done.
Qed.

(** X21.  [Disconnect] always returns and leaves neither an error nor a
    JSON behind, also on a client that was never connected, where the
    [Not connected] of its [write] is cleared again.  The request id
    advances; a valid connection is sent [close] before it is closed, and
    an error of that write is dropped. *)
Theorem Disconnect_spec (this : client) :
  exists rw1,
    Disconnect this = Ok (tt, mkClient (Close rw1) (next_id this) "" "") /\
    rw1 = (if Valid (rw this)
           then snd (WriteHeaderAndMessage (next_id this) "close" (rw this))
           else rw this) /\
    Ok_ (mkClient (Close rw1) (next_id this) "" "") = true.
Proof.
  destruct this as [rw0 id err json]. run_client.
  destruct (Valid rw0).
  - destruct (WriteHeaderAndMessage _ _ _) as [[e|] rw1]; eexists; done.
  - eexists; done.
Qed.

(** X22.  [Connect] first disconnects, then dials: it returns [true]
    exactly when the dial succeeds, and then the new connection is set with
    the default buffer size on the closed one and no error is left; when
    the dial fails the error string is the error of the dial.  Nothing of
    an earlier error or JSON survives in either case. *)
Theorem Connect_spec (this : client) (address : string) :
  exists rw1,
    Disconnect this = Ok (tt, mkClient rw1 (next_id this) "" "") /\
    Connect address this =
      match Dial address with
      | inl conn => Ok (true, mkClient (Set_ conn 2048 rw1) (next_id this) "" "")
      | inr err => Ok (false, mkClient rw1 (next_id this) err "")
      end.
Proof.
  destruct (Disconnect_returns this) as (rw1 & Hd).
  exists (Close rw1). split; [exact Hd|].
  unfold Connect. unfold bind at 1. rewrite Hd.
  destruct (Dial address); reflexivity.
Qed.

End Connection.

Lemma Execute_faults_when_read_fails_witness :
  Execute unit (fun _ => true) (fun _ _ _ => (None, tt)) lost_response
    "status" (mkClient unit tt 0 "" "") = Panic "nil pointer dereference".
Proof.
  apply (Execute_faults_when_read_fails unit (fun _ => true)
           (fun _ _ _ => (None, tt)) lost_response
           (mkClient unit tt 0 "" "") "status" tt).
  - reflexivity.
  - reflexivity.
  - right. exists None, "", "EOF", tt. reflexivity.
Defined.

Lemma Execute_not_sent_witness :
  Execute unit (fun _ => false) broken_write lost_response "status"
    (mkClient unit tt 0 "" "old") =
    Ok (false, mkClient unit tt 1 "Not connected" "old") /\
  Execute unit (fun _ => true) broken_write lost_response "status"
    (mkClient unit tt (2 ^ 32 - 1) "" "old") =
    Ok (false, mkClient unit tt 0 "broken pipe" "old").
Proof.
  split.
  - destruct (Execute_not_sent unit (fun _ => false) broken_write lost_response
                (mkClient unit tt 0 "" "old") "status") as [Hdown _].
    apply Hdown. reflexivity.
  - destruct (Execute_not_sent unit (fun _ => true) broken_write lost_response
                (mkClient unit tt (2 ^ 32 - 1) "" "old") "status") as [_ Herr].
    apply (Herr "broken pipe" tt); reflexivity.
Defined.

Lemma Execute_answered_witness :
  Execute Z (fun _ => true) echo_write echo_read "status"
    (mkClient Z 0 7 "old error" "old") =
    Ok (true, mkClient Z 8 8 "" "{}").
Proof.
  apply (Execute_answered Z (fun _ => true) echo_write echo_read
           (mkClient Z 0 7 "old error" "old") "status" 8 8 (mkHeader 8) "{}");
    reflexivity.
Defined.

Lemma Execute_wrong_requestId_witness :
  Execute Z (fun _ => true) echo_write stale_read "status"
    (mkClient Z 0 7 "" "old") =
    Ok (false, mkClient Z 8 8 "invalid requestId" "").
Proof.
  apply (Execute_wrong_requestId Z (fun _ => true) echo_write stale_read
           (mkClient Z 0 7 "" "old") "status" 8 8 (mkHeader 7) "{}");
    try reflexivity.
  vm_compute. discriminate.
Defined.

Lemma Execute_true_is_ok_witness :
  Ok_ Z (mkClient Z 8 8 "" "{}") = true /\
  Failed Z (mkClient Z 8 8 "" "{}") = false /\
  ErrorString Z (mkClient Z 8 8 "" "{}") = "" /\
  requestId Z (mkClient Z 8 8 "" "{}") = next_id Z (mkClient Z 0 7 "old error" "old") /\
  true = true.
Proof.
  apply (Execute_true_is_ok Z (fun _ => true) echo_write echo_read
           (mkClient Z 0 7 "old error" "old") (mkClient Z 8 8 "" "{}") "status").
  reflexivity.
Defined.

End Client.
